(** * serde.hpp: the C++ runtime of serde-generate

    A shallow embedding of [serde-generate/runtime/cpp/serde.hpp]: the two
    128-bit integer structs with their [operator==], the [Serializable] and
    [Deserializable] traits with one rule per C++ type, and the abstract
    [Serializer] / [Deserializer] the rules drive. *)

From Stdlib Require Import ZArith NArith String Bool Lia List Permutation.
Import ListNotations.

Local Open Scope list_scope.
Local Open Scope N_scope.

(** ** 128-bit integers *)

(** [struct uint128_t { uint64_t high; uint64_t low; }]. *)
Record uint128_t := { u_high : N; u_low : N }.

(** [struct int128_t { int64_t high; uint64_t low; }]. *)
Record int128_t := { i_high : Z; i_low : N }.

(** [operator==(const uint128_t &lhs, const uint128_t &rhs)]:
    [lhs.high == rhs.high && lhs.low == lhs.low]. *)
Definition uint128_eq (lhs rhs : uint128_t) : bool :=
  (u_high lhs =? u_high rhs) && (u_low lhs =? u_low lhs).

(** [operator==(const int128_t &lhs, const int128_t &rhs)]:
    [lhs.high == rhs.high && lhs.low == lhs.low]. *)
Definition int128_eq (lhs rhs : int128_t) : bool :=
  (i_high lhs =? i_high rhs)%Z && (i_low lhs =? i_low lhs).

(** What the two halves of a 128-bit value may hold. *)
Definition uint64_range (n : N) : bool := n <? 2 ^ 64.
Definition int64_range (n : Z) : bool :=
  ((- 2 ^ 63 <=? n) && (n <? 2 ^ 63))%Z.

(** ** Outcomes

    A call either returns or leaves through a C++ exception; dereferencing
    a null [unique_ptr] has no defined outcome and is kept apart. *)

Inductive error : Type :=
| Thrown (what : string)   (* [throw "..."] of a string literal *)
| OutOfRange               (* [std::out_of_range], thrown by [std::array::at] *)
| NullDereference          (* [*value] on a null [std::unique_ptr] *)
| Failure (code : nat).    (* raised inside the Serializer or Deserializer *)

Inductive outcome (A : Type) : Type :=
| Ok (a : A)
| Err (e : error).
Arguments Ok {A} a.
Arguments Err {A} e.

Definition bind {A B : Type} (c : outcome A) (k : A -> outcome B) : outcome B :=
  match c with
  | Ok a => k a
  | Err e => Err e
  end.

Notation "x <- c ;; k" := (bind c (fun x => k))
  (at level 61, c at next level, right associativity).
Notation "' p <- c ;; k" := (bind c (fun x => let p := x in k))
  (at level 61, p pattern, c at next level, right associativity).

(** ** The Serializer and Deserializer template parameters

    The header calls these member functions on its [Serializer &] and
    [Deserializer &] arguments; a binary or text format supplies them.  The
    object is threaded explicitly: every call returns the object after the
    call, or the exception it raised. *)

Class Serializer (W : Type) : Type := {
  serialize_str : string -> W -> outcome W;
  serialize_unit : W -> outcome W;
  serialize_bool : bool -> W -> outcome W;
  serialize_char : N -> W -> outcome W;
  serialize_f32 : N -> W -> outcome W;
  serialize_f64 : N -> W -> outcome W;
  serialize_u8 : N -> W -> outcome W;
  serialize_u16 : N -> W -> outcome W;
  serialize_u32 : N -> W -> outcome W;
  serialize_u64 : N -> W -> outcome W;
  serialize_u128 : uint128_t -> W -> outcome W;
  serialize_i8 : Z -> W -> outcome W;
  serialize_i16 : Z -> W -> outcome W;
  serialize_i32 : Z -> W -> outcome W;
  serialize_i64 : Z -> W -> outcome W;
  serialize_i128 : int128_t -> W -> outcome W;
  serialize_len : N -> W -> outcome W;
  serialize_variant_index : N -> W -> outcome W
}.

Class Deserializer (R : Type) : Type := {
  deserialize_str : R -> outcome (string * R);
  deserialize_unit : R -> outcome (unit * R);
  deserialize_bool : R -> outcome (bool * R);
  deserialize_char : R -> outcome (N * R);
  deserialize_f32 : R -> outcome (N * R);
  deserialize_f64 : R -> outcome (N * R);
  deserialize_u8 : R -> outcome (N * R);
  deserialize_u16 : R -> outcome (N * R);
  deserialize_u32 : R -> outcome (N * R);
  deserialize_u64 : R -> outcome (N * R);
  deserialize_u128 : R -> outcome (uint128_t * R);
  deserialize_i8 : R -> outcome (Z * R);
  deserialize_i16 : R -> outcome (Z * R);
  deserialize_i32 : R -> outcome (Z * R);
  deserialize_i64 : R -> outcome (Z * R);
  deserialize_i128 : R -> outcome (int128_t * R);
  deserialize_len : R -> outcome (N * R);
  deserialize_variant_index : R -> outcome (N * R)
}.

(** ** Types and values

    [shape] names the C++ types the header has a rule for; [value] holds
    their values.  Floats and characters are kept as their bit patterns. *)

Set Warnings "-register-all".

Inductive shape : Type :=
| TStr                              (* std::string *)
| TUnit                             (* std::monostate *)
| TBool                             (* bool *)
| TChar                             (* char32_t *)
| TF32 | TF64                       (* float, double *)
| TU8 | TU16 | TU32 | TU64 | TU128  (* uintN_t, uint128_t *)
| TI8 | TI16 | TI32 | TI64 | TI128  (* intN_t, int128_t *)
| TBox (T : shape)                  (* std::unique_ptr<T> *)
| TOption (T : shape)               (* std::optional<T> *)
| TSeq (T : shape)                  (* std::vector<T> *)
| TArray (T : shape) (n : nat)      (* std::array<T, N> *)
| TMap (K V : shape)                (* std::map<K, V> *)
| TTuple (Ts : list shape)          (* std::tuple<Types...> *)
| TSum (Ts : list shape).           (* std::variant<Types...> *)

Inductive value : Type :=
| VStr (s : string)
| VUnit
| VBool (b : bool)
| VChar (c : N)
| VF32 (bits : N)
| VF64 (bits : N)
| VU8 (n : N) | VU16 (n : N) | VU32 (n : N) | VU64 (n : N)
| VU128 (n : uint128_t)
| VI8 (n : Z) | VI16 (n : Z) | VI32 (n : Z) | VI64 (n : Z)
| VI128 (n : int128_t)
| VBox (p : option value)           (* [None] is the null pointer *)
| VOption (o : option value)
| VSeq (items : list value)
| VArray (items : list value)
| VMap (entries : list (value * value))   (* in iteration order *)
| VTuple (items : list value)
| VSum (index : nat) (payload : value).   (* [index ()] and the held value *)

(** ** Serializable

    One rule per type, as in the header.  The loops [for (const T &item :
    value)] and the fold [(Serializable<Types>::serialize (args, serializer),
    ...)] over the comma operator both visit their elements from first to
    last. *)

Section ForEach.
Context {A W : Type} (body : A -> W -> outcome W).

Fixpoint for_each (items : list A) (w : W) : outcome W :=
  match items with
  | [] => Ok w
  | item :: rest => w1 <- body item w ;; for_each rest w1
  end.

End ForEach.

Section Serializable.
Context {W : Type} {serializer : Serializer W}.

Fixpoint serialize (v : value) (w : W) : outcome W :=
  match v with
  | VStr s => serialize_str s w
  | VUnit => serialize_unit w
  | VBool b => serialize_bool b w
  | VChar c => serialize_char c w
  | VF32 x => serialize_f32 x w
  | VF64 x => serialize_f64 x w
  | VU8 n => serialize_u8 n w
  | VU16 n => serialize_u16 n w
  | VU32 n => serialize_u32 n w
  | VU64 n => serialize_u64 n w
  | VU128 n => serialize_u128 n w
  | VI8 n => serialize_i8 n w
  | VI16 n => serialize_i16 n w
  | VI32 n => serialize_i32 n w
  | VI64 n => serialize_i64 n w
  | VI128 n => serialize_i128 n w
  | VBox p =>
      (* the pointer is dereferenced without a null test *)
      match p with
      | Some pointee => serialize pointee w
      | None => Err NullDereference
      end
  | VOption o =>
      match o with
      | Some x => w1 <- serialize_u8 1 w ;; serialize x w1
      | None => serialize_u8 0 w
      end
  | VSeq items =>
      w1 <- serialize_len (N.of_nat (List.length items)) w ;;
      for_each serialize items w1
  | VArray items => for_each serialize items w
  | VMap entries =>
      w1 <- serialize_len (N.of_nat (List.length entries)) w ;;
      for_each (fun item w2 =>
                  w3 <- serialize (fst item) w2 ;; serialize (snd item) w3)
               entries w1
  | VTuple items => for_each serialize items w
  | VSum index payload =>
      w1 <- serialize_variant_index (N.of_nat index) w ;;
      serialize payload w1
  end.

End Serializable.

(** ** What the standard library does under the rules *)

(** Equality of C++ types. *)
Fixpoint shape_eqb (a b : shape) : bool :=
  match a, b with
  | TStr, TStr | TUnit, TUnit | TBool, TBool | TChar, TChar => true
  | TF32, TF32 | TF64, TF64 => true
  | TU8, TU8 | TU16, TU16 | TU32, TU32 | TU64, TU64 | TU128, TU128 => true
  | TI8, TI8 | TI16, TI16 | TI32, TI32 | TI64, TI64 | TI128, TI128 => true
  | TBox a1, TBox b1 => shape_eqb a1 b1
  | TOption a1, TOption b1 => shape_eqb a1 b1
  | TSeq a1, TSeq b1 => shape_eqb a1 b1
  | TArray a1 n, TArray b1 m => shape_eqb a1 b1 && Nat.eqb n m
  | TMap ka va, TMap kb vb => shape_eqb ka kb && shape_eqb va vb
  | TTuple As, TTuple Bs =>
      (fix all2 (As Bs : list shape) : bool :=
         match As, Bs with
         | [], [] => true
         | x :: As1, y :: Bs1 => shape_eqb x y && all2 As1 Bs1
         | _, _ => false
         end) As Bs
  | TSum As, TSum Bs =>
      (fix all2 (As Bs : list shape) : bool :=
         match As, Bs with
         | [], [] => true
         | x :: As1, y :: Bs1 => shape_eqb x y && all2 As1 Bs1
         | _, _ => false
         end) As Bs
  | _, _ => false
  end.

(** The converting constructor [std::variant<Types...> (T &&)] holds its
    argument in the alternative whose type is [T].  With [T] twice among
    [Types...] the constructor is ambiguous and the header is not
    instantiated at all, so only the position of the one occurrence
    matters. *)
Fixpoint alternative_index (Ts : list shape) (T : shape) : nat :=
  match Ts with
  | [] => O
  | T1 :: Ts1 => if shape_eqb T T1 then O else S (alternative_index Ts1 T)
  end.

(** A [std::variant<Types...>] the header can be instantiated at: no type
    twice in the list, here and below. *)
Fixpoint distinct (Ts : list shape) : bool :=
  match Ts with
  | [] => true
  | T :: Ts1 => negb (existsb (shape_eqb T) Ts1) && distinct Ts1
  end.

Fixpoint instantiable (T : shape) : bool :=
  match T with
  | TBox T1 | TOption T1 | TSeq T1 | TArray T1 _ => instantiable T1
  | TMap K V => instantiable K && instantiable V
  | TTuple Ts => forallb instantiable Ts
  | TSum Ts => distinct Ts && forallb instantiable Ts
  | _ => true
  end.

(** [std::array::at]: bounds-checked access. *)
Definition array_at {A : Type} (cases : list A) (index : N) : outcome A :=
  if index <? N.of_nat (List.length cases)
  then match nth_error cases (N.to_nat index) with
       | Some c => Ok c
       | None => Err OutOfRange
       end
  else Err OutOfRange.

(** C++ leaves the order in which the arguments of one function call are
    evaluated to the compiler ([expr.call]: the initialization of a
    parameter is indeterminately sequenced with respect to that of any
    other parameter, so the arguments run one after the other in an order
    of the compiler's choice).  The two orders compilers use are kept: GCC
    evaluates from the last argument to the first, Clang from the first to
    the last.  The operands of the comma operator and the elements of a
    braced list have no such freedom. *)
Inductive argument_order : Type := LeftToRight | RightToLeft.

(** [std::map<K, V>]: entries in ascending key order under [std::less<K>],
    which the key type supplies and the header only uses. *)
Section StdMap.
Variable key_lt : value -> value -> bool.

(** Two keys neither of which is less than the other are the same key. *)
Definition key_equiv (a b : value) : bool :=
  negb (key_lt a b) && negb (key_lt b a).

(** [result.insert ({key, value})]: a key already present keeps its entry. *)
Fixpoint map_insert (k v : value) (m : list (value * value))
  : list (value * value) :=
  match m with
  | [] => [(k, v)]
  | entry :: m1 =>
      if key_lt k (fst entry) then (k, v) :: m
      else if key_lt (fst entry) k then entry :: map_insert k v m1
      else m
  end.

(** [find]: the value stored under a key. *)
Fixpoint map_find (k : value) (m : list (value * value)) : option value :=
  match m with
  | [] => None
  | entry :: m1 =>
      if key_equiv k (fst entry) then Some (snd entry) else map_find k m1
  end.

(** Strictly ascending keys: the state of every [std::map]. *)
Fixpoint ascending (m : list (value * value)) : bool :=
  match m with
  | [] => true
  | entry :: m1 =>
      forallb (fun later => key_lt (fst entry) (fst later)) m1 && ascending m1
  end.

End StdMap.

(** ** Deserializable *)

Section Deserializable.
Context {R : Type} {deserializer : Deserializer R}.
Variable key_lt : value -> value -> bool.
Variable order : argument_order.

(** The decoder of one type: [Deserializable<T>::deserialize]. *)
Definition decoder : Type := R -> outcome (value * R).

(** [for (size_t i = 0; i < len; i++) result.push_back (...)]. *)
Fixpoint vector_loop (body : decoder) (len : nat) (result : list value)
  (de : R) : outcome (list value * R) :=
  match len with
  | O => Ok (result, de)
  | S len1 =>
      '(item, de1) <- body de ;;
      vector_loop body len1 (result ++ [item]) de1
  end.

(** [for (T &item : result) item = ...] over the [N] slots of an array. *)
Fixpoint array_loop (body : decoder) (slots : nat) (de : R)
  : outcome (list value * R) :=
  match slots with
  | O => Ok ([], de)
  | S slots1 =>
      '(item, de1) <- body de ;;
      '(rest, de2) <- array_loop body slots1 de1 ;;
      Ok (item :: rest, de2)
  end.

(** The loop of the map rule: key, then value, then [insert]. *)
Fixpoint map_loop (key_body value_body : decoder) (len : nat)
  (result : list (value * value)) (de : R)
  : outcome (list (value * value) * R) :=
  match len with
  | O => Ok (result, de)
  | S len1 =>
      '(key, de1) <- key_body de ;;
      '(val, de2) <- value_body de1 ;;
      map_loop key_body value_body len1 (map_insert key_lt key val result) de2
  end.

(** Running decoders one after the other. *)
Fixpoint in_sequence (bodies : list decoder) (de : R)
  : outcome (list value * R) :=
  match bodies with
  | [] => Ok ([], de)
  | body :: bodies1 =>
      '(item, de1) <- body de ;;
      '(rest, de2) <- in_sequence bodies1 de1 ;;
      Ok (item :: rest, de2)
  end.

(** [std::make_tuple (Deserializable<Types>::deserialize (deserializer)...)]:
    the pack expansion is the argument list of the call of [make_tuple], so
    the decoders run in the compiler's argument order; each result lands in
    its own position of the tuple.  (The tuple rule of [Serializable] folds
    over the comma operator instead, which is always first to last.) *)
Definition make_tuple (args : list decoder) (de : R)
  : outcome (list value * R) :=
  match order with
  | LeftToRight => in_sequence args de
  | RightToLeft =>
      '(items, de1) <- in_sequence (rev args) de ;;
      Ok (rev items, de1)
  end.

(** [make_case]: the closure that decodes a [T] and returns it as a
    variant. *)
Definition make_case (Ts : list shape) (T : shape) (body : decoder)
  : decoder :=
  fun de =>
    '(payload, de1) <- body de ;;
    Ok (VSum (alternative_index Ts T) payload, de1).

Fixpoint deserialize (T : shape) (de : R) : outcome (value * R) :=
  match T with
  | TStr => '(s, de1) <- deserialize_str de ;; Ok (VStr s, de1)
  | TUnit => '(_, de1) <- deserialize_unit de ;; Ok (VUnit, de1)
  | TBool => '(b, de1) <- deserialize_bool de ;; Ok (VBool b, de1)
  | TChar => '(c, de1) <- deserialize_char de ;; Ok (VChar c, de1)
  | TF32 => '(x, de1) <- deserialize_f32 de ;; Ok (VF32 x, de1)
  | TF64 => '(x, de1) <- deserialize_f64 de ;; Ok (VF64 x, de1)
  | TU8 => '(n, de1) <- deserialize_u8 de ;; Ok (VU8 n, de1)
  | TU16 => '(n, de1) <- deserialize_u16 de ;; Ok (VU16 n, de1)
  | TU32 => '(n, de1) <- deserialize_u32 de ;; Ok (VU32 n, de1)
  | TU64 => '(n, de1) <- deserialize_u64 de ;; Ok (VU64 n, de1)
  | TU128 => '(n, de1) <- deserialize_u128 de ;; Ok (VU128 n, de1)
  | TI8 => '(n, de1) <- deserialize_i8 de ;; Ok (VI8 n, de1)
  | TI16 => '(n, de1) <- deserialize_i16 de ;; Ok (VI16 n, de1)
  | TI32 => '(n, de1) <- deserialize_i32 de ;; Ok (VI32 n, de1)
  | TI64 => '(n, de1) <- deserialize_i64 de ;; Ok (VI64 n, de1)
  | TI128 => '(n, de1) <- deserialize_i128 de ;; Ok (VI128 n, de1)
  | TBox T1 =>
      '(pointee, de1) <- deserialize T1 de ;;
      Ok (VBox (Some pointee), de1)
  | TOption T1 =>
      '(tag, de1) <- deserialize_u8 de ;;
      if tag =? 0 then Ok (VOption None, de1)
      else if negb (tag =? 1) then Err (Thrown "invalid option tag")
      else '(x, de2) <- deserialize T1 de1 ;; Ok (VOption (Some x), de2)
  | TSeq T1 =>
      '(len, de1) <- deserialize_len de ;;
      '(items, de2) <- vector_loop (deserialize T1) (N.to_nat len) [] de1 ;;
      Ok (VSeq items, de2)
  | TArray T1 n =>
      '(items, de1) <- array_loop (deserialize T1) n de ;;
      Ok (VArray items, de1)
  | TMap K V =>
      '(len, de1) <- deserialize_len de ;;
      '(entries, de2) <-
        map_loop (deserialize K) (deserialize V) (N.to_nat len) [] de1 ;;
      Ok (VMap entries, de2)
  | TTuple Ts =>
      '(items, de1) <- make_tuple (map deserialize Ts) de ;;
      Ok (VTuple items, de1)
  | TSum Ts =>
      let cases := map (fun T1 => make_case Ts T1 (deserialize T1)) Ts in
      '(index, de1) <- deserialize_variant_index de ;;
      case <- array_at cases index ;;
      case de1
  end.

End Deserializable.

(** ** A Serializer that records and a Deserializer that replays

    One [call] per member function of the Serializer, with its argument.
    The recording Serializer appends each call it receives; the replaying
    Deserializer hands back the argument of the next recorded call when its
    kind is the one asked for, and fails otherwise. *)

Inductive call : Type :=
| CStr (s : string)
| CUnit
| CBool (b : bool)
| CChar (c : N)
| CF32 (bits : N) | CF64 (bits : N)
| CU8 (n : N) | CU16 (n : N) | CU32 (n : N) | CU64 (n : N)
| CU128 (n : uint128_t)
| CI8 (n : Z) | CI16 (n : Z) | CI32 (n : Z) | CI64 (n : Z)
| CI128 (n : int128_t)
| CLen (n : N)
| CVariantIndex (n : N).

(** Making one recorded call on a Serializer. *)
Definition replay_call {W : Type} {serializer : Serializer W} (c : call)
  (w : W) : outcome W :=
  match c with
  | CStr s => serialize_str s w
  | CUnit => serialize_unit w
  | CBool b => serialize_bool b w
  | CChar x => serialize_char x w
  | CF32 x => serialize_f32 x w
  | CF64 x => serialize_f64 x w
  | CU8 n => serialize_u8 n w
  | CU16 n => serialize_u16 n w
  | CU32 n => serialize_u32 n w
  | CU64 n => serialize_u64 n w
  | CU128 n => serialize_u128 n w
  | CI8 n => serialize_i8 n w
  | CI16 n => serialize_i16 n w
  | CI32 n => serialize_i32 n w
  | CI64 n => serialize_i64 n w
  | CI128 n => serialize_i128 n w
  | CLen n => serialize_len n w
  | CVariantIndex n => serialize_variant_index n w
  end.

(** Making a sequence of calls, stopping at the first that fails. *)
Definition replay_calls {W : Type} {serializer : Serializer W}
  : list call -> W -> outcome W :=
  for_each replay_call.

Definition record (c : call) (w : list call) : outcome (list call) :=
  Ok (w ++ [c]).

#[export] Instance recorder : Serializer (list call) := {
  serialize_str s := record (CStr s);
  serialize_unit := record CUnit;
  serialize_bool b := record (CBool b);
  serialize_char c := record (CChar c);
  serialize_f32 x := record (CF32 x);
  serialize_f64 x := record (CF64 x);
  serialize_u8 n := record (CU8 n);
  serialize_u16 n := record (CU16 n);
  serialize_u32 n := record (CU32 n);
  serialize_u64 n := record (CU64 n);
  serialize_u128 n := record (CU128 n);
  serialize_i8 n := record (CI8 n);
  serialize_i16 n := record (CI16 n);
  serialize_i32 n := record (CI32 n);
  serialize_i64 n := record (CI64 n);
  serialize_i128 n := record (CI128 n);
  serialize_len n := record (CLen n);
  serialize_variant_index n := record (CVariantIndex n)
}.

(** The failure of the replaying Deserializer: nothing left, or a call of
    another kind. *)
Definition mismatch : error := Failure 0.

Definition next {A : Type} (pick : call -> option A) (de : list call)
  : outcome (A * list call) :=
  match de with
  | c :: de1 =>
      match pick c with
      | Some a => Ok (a, de1)
      | None => Err mismatch
      end
  | [] => Err mismatch
  end.

#[export] Instance replayer : Deserializer (list call) := {
  deserialize_str := next (fun c => match c with CStr s => Some s | _ => None end);
  deserialize_unit := next (fun c => match c with CUnit => Some tt | _ => None end);
  deserialize_bool := next (fun c => match c with CBool b => Some b | _ => None end);
  deserialize_char := next (fun c => match c with CChar x => Some x | _ => None end);
  deserialize_f32 := next (fun c => match c with CF32 x => Some x | _ => None end);
  deserialize_f64 := next (fun c => match c with CF64 x => Some x | _ => None end);
  deserialize_u8 := next (fun c => match c with CU8 n => Some n | _ => None end);
  deserialize_u16 := next (fun c => match c with CU16 n => Some n | _ => None end);
  deserialize_u32 := next (fun c => match c with CU32 n => Some n | _ => None end);
  deserialize_u64 := next (fun c => match c with CU64 n => Some n | _ => None end);
  deserialize_u128 := next (fun c => match c with CU128 n => Some n | _ => None end);
  deserialize_i8 := next (fun c => match c with CI8 n => Some n | _ => None end);
  deserialize_i16 := next (fun c => match c with CI16 n => Some n | _ => None end);
  deserialize_i32 := next (fun c => match c with CI32 n => Some n | _ => None end);
  deserialize_i64 := next (fun c => match c with CI64 n => Some n | _ => None end);
  deserialize_i128 := next (fun c => match c with CI128 n => Some n | _ => None end);
  deserialize_len := next (fun c => match c with CLen n => Some n | _ => None end);
  deserialize_variant_index :=
    next (fun c => match c with CVariantIndex n => Some n | _ => None end)
}.

(** ** Values of a type

    [has_shape v T]: [v] is a value of the C++ type [T] as the data model
    has it: integers within their width, arrays of their length, maps in
    ascending key order, variants holding a declared alternative, and owning
    pointers never null. *)

Definition unsigned_range (bits : N) (n : N) : bool := n <? 2 ^ bits.
Definition signed_range (bits : Z) (n : Z) : bool :=
  ((- 2 ^ (bits - 1) <=? n) && (n <? 2 ^ (bits - 1)))%Z.

Section HasShape.
Variable key_lt : value -> value -> bool.

Fixpoint has_shape (v : value) (T : shape) : bool :=
  match v, T with
  | VStr _, TStr => true
  | VUnit, TUnit => true
  | VBool _, TBool => true
  | VChar c, TChar => unsigned_range 32 c
  | VF32 x, TF32 => unsigned_range 32 x
  | VF64 x, TF64 => unsigned_range 64 x
  | VU8 n, TU8 => unsigned_range 8 n
  | VU16 n, TU16 => unsigned_range 16 n
  | VU32 n, TU32 => unsigned_range 32 n
  | VU64 n, TU64 => unsigned_range 64 n
  | VU128 n, TU128 => uint64_range (u_high n) && uint64_range (u_low n)
  | VI8 n, TI8 => signed_range 8 n
  | VI16 n, TI16 => signed_range 16 n
  | VI32 n, TI32 => signed_range 32 n
  | VI64 n, TI64 => signed_range 64 n
  | VI128 n, TI128 => int64_range (i_high n) && uint64_range (i_low n)
  | VBox (Some pointee), TBox T1 => has_shape pointee T1
  | VOption None, TOption _ => true
  | VOption (Some x), TOption T1 => has_shape x T1
  | VSeq items, TSeq T1 => forallb (fun x => has_shape x T1) items
  | VArray items, TArray T1 n =>
      Nat.eqb (List.length items) n && forallb (fun x => has_shape x T1) items
  | VMap entries, TMap K V =>
      ascending key_lt entries
      && forallb (fun e => has_shape (fst e) K && has_shape (snd e) V) entries
  | VTuple items, TTuple Ts =>
      (fix all2 (items : list value) (Ts : list shape) : bool :=
         match items, Ts with
         | [], [] => true
         | x :: items1, T1 :: Ts1 => has_shape x T1 && all2 items1 Ts1
         | _, _ => false
         end) items Ts
  | VSum index payload, TSum Ts =>
      match nth_error Ts index with
      | Some T1 => has_shape payload T1
      | None => false
      end
  | _, _ => false
  end.

End HasShape.

(** No null owning pointer anywhere in a value. *)
Fixpoint owners_present (v : value) : bool :=
  match v with
  | VBox (Some pointee) => owners_present pointee
  | VBox None => false
  | VOption (Some x) => owners_present x
  | VSeq items | VArray items | VTuple items => forallb owners_present items
  | VMap entries =>
      forallb (fun e => owners_present (fst e) && owners_present (snd e)) entries
  | VSum _ payload => owners_present payload
  | _ => true
  end.

(** ** Induction over values and types

    [value] and [shape] recur through [list], [option] and pairs, so the
    induction principles carry the hypothesis to every component. *)

Definition leaf_value (v : value) : bool :=
  match v with
  | VBox _ | VOption _ | VSeq _ | VArray _ | VMap _ | VTuple _ | VSum _ _ =>
      false
  | _ => true
  end.

Definition leaf_shape (T : shape) : bool :=
  match T with
  | TBox _ | TOption _ | TSeq _ | TArray _ _ | TMap _ _ | TTuple _ | TSum _ =>
      false
  | _ => true
  end.

Section ValueInduction.
Variable P : value -> Prop.
Hypothesis on_leaf : forall v, leaf_value v = true -> P v.
Hypothesis on_null : P (VBox None).
Hypothesis on_box : forall x, P x -> P (VBox (Some x)).
Hypothesis on_absent : P (VOption None).
Hypothesis on_present : forall x, P x -> P (VOption (Some x)).
Hypothesis on_seq : forall items, Forall P items -> P (VSeq items).
Hypothesis on_array : forall items, Forall P items -> P (VArray items).
Hypothesis on_map : forall entries,
  Forall (fun e => P (fst e) /\ P (snd e)) entries -> P (VMap entries).
Hypothesis on_tuple : forall items, Forall P items -> P (VTuple items).
Hypothesis on_sum : forall index payload, P payload -> P (VSum index payload).

Fixpoint value_induction (v : value) : P v :=
  let all :=
    fix all (l : list value) : Forall P l :=
      match l with
      | [] => Forall_nil P
      | x :: l1 => Forall_cons x (value_induction x) (all l1)
      end in
  match v with
  | VBox None => on_null
  | VBox (Some x) => on_box x (value_induction x)
  | VOption None => on_absent
  | VOption (Some x) => on_present x (value_induction x)
  | VSeq items => on_seq items (all items)
  | VArray items => on_array items (all items)
  | VMap entries =>
      on_map entries
        ((fix all_entries (l : list (value * value))
            : Forall (fun e => P (fst e) /\ P (snd e)) l :=
            match l with
            | [] => Forall_nil _
            | e :: l1 =>
                Forall_cons e
                  (conj (value_induction (fst e)) (value_induction (snd e)))
                  (all_entries l1)
            end) entries)
  | VTuple items => on_tuple items (all items)
  | VSum index payload => on_sum index payload (value_induction payload)
  | other => on_leaf other eq_refl
  end.

End ValueInduction.

Section ShapeInduction.
Variable P : shape -> Prop.
Hypothesis on_leaf : forall T, leaf_shape T = true -> P T.
Hypothesis on_box : forall T, P T -> P (TBox T).
Hypothesis on_option : forall T, P T -> P (TOption T).
Hypothesis on_seq : forall T, P T -> P (TSeq T).
Hypothesis on_array : forall T n, P T -> P (TArray T n).
Hypothesis on_map : forall K V, P K -> P V -> P (TMap K V).
Hypothesis on_tuple : forall Ts, Forall P Ts -> P (TTuple Ts).
Hypothesis on_sum : forall Ts, Forall P Ts -> P (TSum Ts).

Fixpoint shape_induction (T : shape) : P T :=
  let all :=
    fix all (l : list shape) : Forall P l :=
      match l with
      | [] => Forall_nil P
      | x :: l1 => Forall_cons x (shape_induction x) (all l1)
      end in
  match T with
  | TBox T1 => on_box T1 (shape_induction T1)
  | TOption T1 => on_option T1 (shape_induction T1)
  | TSeq T1 => on_seq T1 (shape_induction T1)
  | TArray T1 n => on_array T1 n (shape_induction T1)
  | TMap K V => on_map K V (shape_induction K) (shape_induction V)
  | TTuple Ts => on_tuple Ts (all Ts)
  | TSum Ts => on_sum Ts (all Ts)
  | other => on_leaf other eq_refl
  end.

End ShapeInduction.

(** ** The calls a value makes *)

(** The one call the rule of a base type makes. *)
Definition leaf_calls (v : value) : list call :=
  match v with
  | VStr s => [CStr s]
  | VUnit => [CUnit]
  | VBool b => [CBool b]
  | VChar c => [CChar c]
  | VF32 x => [CF32 x]
  | VF64 x => [CF64 x]
  | VU8 n => [CU8 n]
  | VU16 n => [CU16 n]
  | VU32 n => [CU32 n]
  | VU64 n => [CU64 n]
  | VU128 n => [CU128 n]
  | VI8 n => [CI8 n]
  | VI16 n => [CI16 n]
  | VI32 n => [CI32 n]
  | VI64 n => [CI64 n]
  | VI128 n => [CI128 n]
  | _ => []
  end.

(** [emits v calls]: on every Serializer, serializing [v] is making the
    calls of [calls] one after the other. *)
Definition emits (v : value) (calls : list call) : Prop :=
  forall (W : Type) (serializer : Serializer W) (w : W),
    serialize v w = replay_calls calls w.

(** ** What a Deserializer is asked, in order *)

Section Decoding.
Context {R : Type}.

(** [decodes_items body de items de']: from [de], running [body] once per
    element yields [items], first to last, and leaves [de']. *)
Inductive decodes_items (body : R -> outcome (value * R))
  : R -> list value -> R -> Prop :=
| decodes_no_item (de : R) : decodes_items body de [] de
| decodes_next_item (de de1 de2 : R) (item : value) (items : list value) :
    body de = Ok (item, de1) ->
    decodes_items body de1 items de2 ->
    decodes_items body de (item :: items) de2.

(** The same for map entries: a key, then its value. *)
Inductive decodes_entries (key_body value_body : R -> outcome (value * R))
  : R -> list (value * value) -> R -> Prop :=
| decodes_no_entry (de : R) : decodes_entries key_body value_body de [] de
| decodes_next_entry (de de1 de2 de3 : R) (k v : value)
    (entries : list (value * value)) :
    key_body de = Ok (k, de1) ->
    value_body de1 = Ok (v, de2) ->
    decodes_entries key_body value_body de2 entries de3 ->
    decodes_entries key_body value_body de ((k, v) :: entries) de3.

End Decoding.

(** Inserting entries one after the other, as the map rule does. *)
Definition insert_all (key_lt : value -> value -> bool)
  (entries : list (value * value)) (m : list (value * value))
  : list (value * value) :=
  fold_left (fun m1 e => map_insert key_lt (fst e) (snd e) m1) entries m.

(** [std::less<uint8_t>], for maps keyed by [uint8_t]. *)
Definition u8_lt (a b : value) : bool :=
  match a, b with
  | VU8 x, VU8 y => x <? y
  | _, _ => false
  end.

(** [replays body item calls]: on the recorded calls of [item], followed by
    anything, [body] returns [item] and leaves what follows. *)
Definition replays (body : list call -> outcome (value * list call))
  (item : value) (calls : list call) : Prop :=
  forall rest, body (calls ++ rest) = Ok (item, rest).

(** ** Where the argument order can show *)

(** Types in which every [std::tuple] has at most one component: the call
    of [std::make_tuple] then has at most one argument. *)
Fixpoint short_tuples (T : shape) : bool :=
  match T with
  | TBox T1 | TOption T1 | TSeq T1 | TArray T1 _ => short_tuples T1
  | TMap K V => short_tuples K && short_tuples V
  | TTuple Ts => (List.length Ts <=? 1)%nat && forallb short_tuples Ts
  | TSum Ts => forallb short_tuples Ts
  | _ => true
  end.

(** A list taken in the order a compiler evaluates call arguments. *)
Definition in_argument_order {A : Type} (order : argument_order)
  (l : list A) : list A :=
  match order with
  | LeftToRight => l
  | RightToLeft => rev l
  end.

(** One component of a tuple: its type, its value and the calls serializing
    it makes. *)
Record component : Type := {
  component_type : shape;
  component_value : value;
  component_calls : list call
}.

(** ** Where a failure comes from *)

(** [serializer_raises e]: some member function of the Serializer, on some
    Serializer state, raises [e]. *)
Definition serializer_raises {W : Type} {serializer : Serializer W}
  (e : error) : Prop :=
  exists (c : call) (w : W), replay_call c w = Err e.

Definition failure_of {A : Type} (o : outcome A) : option error :=
  match o with
  | Ok _ => None
  | Err e => Some e
  end.

(** [deserializer_raises e]: some member function of the Deserializer, on
    some Deserializer state, raises [e]. *)
Definition deserializer_raises {R : Type} {deserializer : Deserializer R}
  (e : error) : Prop :=
  exists de : R,
    In (Some e)
      [failure_of (deserialize_str de); failure_of (deserialize_unit de);
       failure_of (deserialize_bool de); failure_of (deserialize_char de);
       failure_of (deserialize_f32 de); failure_of (deserialize_f64 de);
       failure_of (deserialize_u8 de); failure_of (deserialize_u16 de);
       failure_of (deserialize_u32 de); failure_of (deserialize_u64 de);
       failure_of (deserialize_u128 de); failure_of (deserialize_i8 de);
       failure_of (deserialize_i16 de); failure_of (deserialize_i32 de);
       failure_of (deserialize_i64 de); failure_of (deserialize_i128 de);
       failure_of (deserialize_len de);
       failure_of (deserialize_variant_index de)].

(** ** Deserializers that keep to their return types *)

(** The member functions of a Deserializer return C++ integers, characters
    and floats: each value lies within the width of its type. *)
Class Ranged (R : Type) {deserializer : Deserializer R} : Prop := {
  char_in_range : forall de c de1,
    deserialize_char de = Ok (c, de1) -> unsigned_range 32 c = true;
  f32_in_range : forall de x de1,
    deserialize_f32 de = Ok (x, de1) -> unsigned_range 32 x = true;
  f64_in_range : forall de x de1,
    deserialize_f64 de = Ok (x, de1) -> unsigned_range 64 x = true;
  u8_in_range : forall de n de1,
    deserialize_u8 de = Ok (n, de1) -> unsigned_range 8 n = true;
  u16_in_range : forall de n de1,
    deserialize_u16 de = Ok (n, de1) -> unsigned_range 16 n = true;
  u32_in_range : forall de n de1,
    deserialize_u32 de = Ok (n, de1) -> unsigned_range 32 n = true;
  u64_in_range : forall de n de1,
    deserialize_u64 de = Ok (n, de1) -> unsigned_range 64 n = true;
  u128_in_range : forall de n de1,
    deserialize_u128 de = Ok (n, de1) ->
    uint64_range (u_high n) && uint64_range (u_low n) = true;
  i8_in_range : forall de n de1,
    deserialize_i8 de = Ok (n, de1) -> signed_range 8 n = true;
  i16_in_range : forall de n de1,
    deserialize_i16 de = Ok (n, de1) -> signed_range 16 n = true;
  i32_in_range : forall de n de1,
    deserialize_i32 de = Ok (n, de1) -> signed_range 32 n = true;
  i64_in_range : forall de n de1,
    deserialize_i64 de = Ok (n, de1) -> signed_range 64 n = true;
  i128_in_range : forall de n de1,
    deserialize_i128 de = Ok (n, de1) ->
    int64_range (i_high n) && uint64_range (i_low n) = true
}.

(** A replaying Deserializer that reads each number into its width: the
    recorded argument is reduced modulo the width of the type asked for
    (signed types: into the two's-complement range). *)
Record narrowing : Type := { recorded : list call }.

Definition wrap_unsigned (bits : N) (n : N) : N := n mod 2 ^ bits.

Definition wrap_signed (bits : Z) (n : Z) : Z :=
  ((n + 2 ^ (bits - 1)) mod 2 ^ bits - 2 ^ (bits - 1))%Z.

Definition next_narrowed {A : Type} (pick : call -> option A)
  (de : narrowing) : outcome (A * narrowing) :=
  match next pick (recorded de) with
  | Ok (a, de1) => Ok (a, {| recorded := de1 |})
  | Err e => Err e
  end.

#[export] Instance narrowing_replayer : Deserializer narrowing := {
  deserialize_str :=
    next_narrowed (fun c => match c with CStr s => Some s | _ => None end);
  deserialize_unit :=
    next_narrowed (fun c => match c with CUnit => Some tt | _ => None end);
  deserialize_bool :=
    next_narrowed (fun c => match c with CBool b => Some b | _ => None end);
  deserialize_char :=
    next_narrowed (fun c => match c with
                            | CChar x => Some (wrap_unsigned 32 x)
                            | _ => None
                            end);
  deserialize_f32 :=
    next_narrowed (fun c => match c with
                            | CF32 x => Some (wrap_unsigned 32 x)
                            | _ => None
                            end);
  deserialize_f64 :=
    next_narrowed (fun c => match c with
                            | CF64 x => Some (wrap_unsigned 64 x)
                            | _ => None
                            end);
  deserialize_u8 :=
    next_narrowed (fun c => match c with
                            | CU8 n => Some (wrap_unsigned 8 n)
                            | _ => None
                            end);
  deserialize_u16 :=
    next_narrowed (fun c => match c with
                            | CU16 n => Some (wrap_unsigned 16 n)
                            | _ => None
                            end);
  deserialize_u32 :=
    next_narrowed (fun c => match c with
                            | CU32 n => Some (wrap_unsigned 32 n)
                            | _ => None
                            end);
  deserialize_u64 :=
    next_narrowed (fun c => match c with
                            | CU64 n => Some (wrap_unsigned 64 n)
                            | _ => None
                            end);
  deserialize_u128 :=
    next_narrowed (fun c => match c with
                            | CU128 n =>
                                Some {| u_high := wrap_unsigned 64 (u_high n);
                                        u_low := wrap_unsigned 64 (u_low n) |}
                            | _ => None
                            end);
  deserialize_i8 :=
    next_narrowed (fun c => match c with
                            | CI8 n => Some (wrap_signed 8 n)
                            | _ => None
                            end);
  deserialize_i16 :=
    next_narrowed (fun c => match c with
                            | CI16 n => Some (wrap_signed 16 n)
                            | _ => None
                            end);
  deserialize_i32 :=
    next_narrowed (fun c => match c with
                            | CI32 n => Some (wrap_signed 32 n)
                            | _ => None
                            end);
  deserialize_i64 :=
    next_narrowed (fun c => match c with
                            | CI64 n => Some (wrap_signed 64 n)
                            | _ => None
                            end);
  deserialize_i128 :=
    next_narrowed (fun c => match c with
                            | CI128 n =>
                                Some {| i_high := wrap_signed 64 (i_high n);
                                        i_low := wrap_unsigned 64 (i_low n) |}
                            | _ => None
                            end);
  deserialize_len :=
    next_narrowed (fun c => match c with CLen n => Some n | _ => None end);
  deserialize_variant_index :=
    next_narrowed
      (fun c => match c with CVariantIndex n => Some n | _ => None end)
}.

(** ** A Serializer that runs out of room *)

(** A recording Serializer over a medium with room for a fixed number of
    calls: a call with no room left raises, and records nothing. *)
Record bounded : Type := { room : nat; written : list call }.

Definition medium_full : error := Failure 1.

Definition record_bounded (c : call) (w : bounded) : outcome bounded :=
  match room w with
  | O => Err medium_full
  | S spare => Ok {| room := spare; written := written w ++ [c] |}
  end.

#[export] Instance bounded_recorder : Serializer bounded := {
  serialize_str s := record_bounded (CStr s);
  serialize_unit := record_bounded CUnit;
  serialize_bool b := record_bounded (CBool b);
  serialize_char c := record_bounded (CChar c);
  serialize_f32 x := record_bounded (CF32 x);
  serialize_f64 x := record_bounded (CF64 x);
  serialize_u8 n := record_bounded (CU8 n);
  serialize_u16 n := record_bounded (CU16 n);
  serialize_u32 n := record_bounded (CU32 n);
  serialize_u64 n := record_bounded (CU64 n);
  serialize_u128 n := record_bounded (CU128 n);
  serialize_i8 n := record_bounded (CI8 n);
  serialize_i16 n := record_bounded (CI16 n);
  serialize_i32 n := record_bounded (CI32 n);
  serialize_i64 n := record_bounded (CI64 n);
  serialize_i128 n := record_bounded (CI128 n);
  serialize_len n := record_bounded (CLen n);
  serialize_variant_index n := record_bounded (CVariantIndex n)
}.

(** [sound_decoder key_lt T body]: what the decoder [body] returns is a
    value of [T]. *)
Definition sound_decoder {R : Type} (key_lt : value -> value -> bool)
  (T : shape) (body : R -> outcome (value * R)) : Prop :=
  forall de v de1, body de = Ok (v, de1) -> has_shape key_lt v T = true.

(** * Properties *)

(** ** Outcomes compose *)

Lemma bind_ok_right {A : Type} (c : outcome A) : bind c Ok = c.
Proof. destruct c; reflexivity. Qed.

Lemma bind_assoc {A B C : Type} (c : outcome A) (k : A -> outcome B)
  (h : B -> outcome C) :
  bind (bind c k) h = bind c (fun a => bind (k a) h).
Proof. destruct c; reflexivity. Qed.

Lemma bind_ext {A B : Type} (c : outcome A) (k h : A -> outcome B) :
  (forall a, k a = h a) -> bind c k = bind c h.
Proof. intros same; destruct c; simpl; auto. Qed.

Lemma for_each_app {A W : Type} (body : A -> W -> outcome W)
  (first second : list A) (w : W) :
  for_each body (first ++ second) w
  = bind (for_each body first w) (for_each body second).
Proof.
  revert w; induction first as [|item first IH]; intros w; simpl.
  - reflexivity.
  - rewrite bind_assoc. apply bind_ext. exact IH.
Qed.

(** ** Serializing is making calls *)

Lemma replay_calls_app {W : Type} {serializer : Serializer W}
  (first second : list call) (w : W) :
  replay_calls (first ++ second) w
  = bind (replay_calls first w) (replay_calls second).
Proof. apply for_each_app. Qed.

Lemma replay_calls_one {W : Type} {serializer : Serializer W} (c : call)
  (w : W) :
  replay_calls [c] w = replay_call c w.
Proof. unfold replay_calls; simpl. apply bind_ok_right. Qed.

Lemma replay_calls_cons {W : Type} {serializer : Serializer W} (c : call)
  (calls : list call) (w : W) :
  replay_calls (c :: calls) w = bind (replay_call c w) (replay_calls calls).
Proof. reflexivity. Qed.

(** The recording Serializer never fails: it appends the calls. *)
Lemma replay_calls_recorder (calls w : list call) :
  replay_calls calls w = Ok (w ++ calls).
Proof.
  revert w; induction calls as [|c calls IH]; intros w.
  - simpl. now rewrite app_nil_r.
  - rewrite replay_calls_cons.
    assert (step : replay_call c w = Ok (w ++ [c])) by (destruct c; reflexivity).
    rewrite step; simpl. rewrite IH, <- app_assoc. reflexivity.
Qed.

Lemma emits_recorded (v : value) (calls w : list call) :
  emits v calls -> serialize v w = Ok (w ++ calls).
Proof. intros run. rewrite (run _ recorder w). apply replay_calls_recorder. Qed.

(** A loop over items that each emit their calls emits them in order. *)
Lemma for_each_emits (items : list value) :
  Forall (fun item => exists calls, emits item calls) items ->
  exists each : list (list call),
    Forall2 emits items each
    /\ forall (W : Type) (serializer : Serializer W) (w : W),
         for_each serialize items w = replay_calls (concat each) w.
Proof.
  induction 1 as [|item items [calls run] _ [each [pairs loop]]].
  - exists []. split; [constructor | reflexivity].
  - exists (calls :: each). split; [now constructor |].
    intros W serializer w. simpl.
    rewrite replay_calls_app, run. apply bind_ext.
    intros w1. apply loop.
Qed.

Lemma for_each_entries_emit (entries : list (value * value)) :
  Forall (fun e => (exists calls, emits (fst e) calls)
                   /\ (exists calls, emits (snd e) calls)) entries ->
  exists calls : list call,
    forall (W : Type) (serializer : Serializer W) (w : W),
      for_each (fun item w2 =>
                  w3 <- serialize (fst item) w2 ;; serialize (snd item) w3)
               entries w
      = replay_calls calls w.
Proof.
  induction 1 as [|e entries [[kc krun] [vc vrun]] _ [calls loop]].
  - exists []. reflexivity.
  - exists (kc ++ vc ++ calls). intros W serializer w. cbn [for_each].
    rewrite bind_assoc, replay_calls_app, krun.
    apply bind_ext; intros w1.
    rewrite replay_calls_app, vrun. apply bind_ext; intros w2. apply loop.
Qed.

Lemma forallb_Forall_weaken {A : Type} (f : A -> bool) (P : A -> Prop)
  (l : list A) :
  Forall (fun x => f x = true -> P x) l -> forallb f l = true -> Forall P l.
Proof.
  induction 1 as [|x l step _ IH]; simpl; intros all.
  - constructor.
  - apply andb_true_iff in all as [here there]. constructor; auto.
Qed.

(** Every value without a null owner emits one sequence of calls. *)
Lemma emits_total (v : value) :
  owners_present v = true -> exists calls, emits v calls.
Proof.
  induction v using value_induction; simpl; intros present.
  - exists (leaf_calls v). intros W serializer w.
    destruct v; try discriminate; simpl leaf_calls;
      rewrite replay_calls_one; reflexivity.
  - discriminate.
  - destruct (IHv present) as [calls run]. exists calls. exact run.
  - exists [CU8 0]. intros W serializer w. now rewrite replay_calls_one.
  - destruct (IHv present) as [calls run]. exists (CU8 1 :: calls).
    intros W serializer w. rewrite replay_calls_cons. cbn [serialize].
    apply bind_ext; intros w1. apply run.
  - destruct (for_each_emits items) as [each [_ loop]].
    { now apply forallb_Forall_weaken with (f := owners_present). }
    exists (CLen (N.of_nat (List.length items)) :: concat each).
    intros W serializer w. rewrite replay_calls_cons. cbn [serialize].
    apply bind_ext; intros w1. apply loop.
  - destruct (for_each_emits items) as [each [_ loop]].
    { now apply forallb_Forall_weaken with (f := owners_present). }
    exists (concat each). intros W serializer w. apply loop.
  - destruct (for_each_entries_emit entries) as [calls loop].
    { apply forallb_Forall_weaken
        with (f := fun e => owners_present (fst e) && owners_present (snd e));
        [| exact present].
      eapply Forall_impl; [| exact H].
      intros e [kIH vIH] both.
      apply andb_true_iff in both as [kp vp]. split; auto. }
    exists (CLen (N.of_nat (List.length entries)) :: calls).
    intros W serializer w. rewrite replay_calls_cons. cbn [serialize].
    apply bind_ext; intros w1. apply loop.
  - destruct (for_each_emits items) as [each [_ loop]].
    { now apply forallb_Forall_weaken with (f := owners_present). }
    exists (concat each). intros W serializer w. apply loop.
  - destruct (IHv present) as [calls run].
    exists (CVariantIndex (N.of_nat index) :: calls).
    intros W serializer w. rewrite replay_calls_cons. cbn [serialize].
    apply bind_ext; intros w1. apply run.
Qed.

(** ** Values of a type have their owners *)

Lemma forallb_impl_Forall {A : Type} (f g : A -> bool) (l : list A) :
  Forall (fun x => f x = true -> g x = true) l ->
  forallb f l = true -> forallb g l = true.
Proof.
  induction 1 as [|x l step _ IH]; simpl; intros all.
  - reflexivity.
  - apply andb_true_iff in all as [here there].
    apply andb_true_iff. split; auto.
Qed.

Lemma has_shape_owners_present (key_lt : value -> value -> bool) (v : value) :
  forall T, has_shape key_lt v T = true -> owners_present v = true.
Proof.
  induction v using value_induction; intros T typed.
  - destruct v; try discriminate; reflexivity.
  - destruct T; discriminate.
  - destruct T; try discriminate. simpl in *. eauto.
  - reflexivity.
  - destruct T; try discriminate. simpl in *. eauto.
  - destruct T; try discriminate. simpl in *.
    revert typed. apply forallb_impl_Forall.
    eapply Forall_impl; [| exact H]. intros x IH. apply IH.
  - destruct T; try discriminate. simpl in *.
    apply andb_true_iff in typed as [_ typed].
    revert typed. apply forallb_impl_Forall.
    eapply Forall_impl; [| exact H]. intros x IH. apply IH.
  - destruct T; try discriminate. simpl in *.
    apply andb_true_iff in typed as [_ typed].
    revert typed. apply forallb_impl_Forall.
    eapply Forall_impl; [| exact H]. intros e [kIH vIH] both.
    apply andb_true_iff in both as [kt vt].
    apply andb_true_iff. split; eauto.
  - destruct T; try discriminate. simpl in *.
    revert Ts typed. induction H as [|x items IHx _ IHitems]; intros Ts typed.
    + reflexivity.
    + destruct Ts as [|T1 Ts]; [discriminate |].
      apply andb_true_iff in typed as [here there]. simpl.
      apply andb_true_iff. split; eauto.
  - destruct T; try discriminate. simpl in *.
    destruct (nth_error Ts index); [eauto | discriminate].
Qed.

(** ** The claims about serialization *)

(** C8.  Serialization is total: a value of any type makes one sequence of
    Serializer calls, the one the recording Serializer writes down, and on
    every Serializer serializing the value is making exactly those calls in
    that order, so it fails only where a call of the Serializer fails. *)
Theorem serialize_total (key_lt : value -> value -> bool) (v : value)
  (T : shape) :
  has_shape key_lt v T = true ->
  exists calls : list call,
    serialize v [] = Ok calls
    /\ forall (W : Type) (serializer : Serializer W) (w : W),
         serialize v w = replay_calls calls w.
Proof.
  intros typed.
  destruct (emits_total v) as [calls run].
  { eapply has_shape_owners_present; eassumption. }
  exists calls. split.
  - apply (emits_recorded v calls []). exact run.
  - exact run.
Qed.

Lemma serialize_total_witness :
  has_shape (fun _ _ => false)
    (VTuple [VOption (Some (VU8 7)); VSeq [VBool true; VBool false]])
    (TTuple [TOption TU8; TSeq TBool]) = true
  /\ exists calls : list call,
       serialize
         (VTuple [VOption (Some (VU8 7)); VSeq [VBool true; VBool false]]) []
       = Ok calls
       /\ forall (W : Type) (serializer : Serializer W) (w : W),
            serialize
              (VTuple [VOption (Some (VU8 7)); VSeq [VBool true; VBool false]])
              w
            = replay_calls calls w.
Proof.
  split.
  - reflexivity.
  - apply (serialize_total (fun _ _ => false) _
             (TTuple [TOption TU8; TSeq TBool])).
    reflexivity.
Defined.

(** C9.  An owning pointer is transparent: serializing a non-null
    [unique_ptr] makes the calls of serializing the value it owns, on every
    Serializer, and deserializing a [unique_ptr<T>] is deserializing a [T],
    leaving the Deserializer where that leaves it, and owning the result. *)
Theorem owned_indirection_transparent :
  (forall (W : Type) (serializer : Serializer W) (v : value) (w : W),
     serialize (VBox (Some v)) w = serialize v w)
  /\ (forall (R : Type) (deserializer : Deserializer R)
        (key_lt : value -> value -> bool) (order : argument_order)
        (T : shape) (de : R),
        deserialize key_lt order (TBox T) de
        = match deserialize key_lt order T de with
          | Ok (x, de1) => Ok (VBox (Some x), de1)
          | Err e => Err e
          end).
Proof.
  split.
  - reflexivity.
  - intros R deserializer key_lt order T de. cbn [deserialize].
    destruct (deserialize key_lt order T de) as [[x de1]|e]; reflexivity.
Qed.

(** C10.  The rule for [unique_ptr] dereferences without a null test: a
    null pointer reaches the dereference before any Serializer call, on
    every Serializer, which is undefined behaviour and no exception; a
    non-null pointer is serialized as its pointee; and a value whose owners
    are all present never reaches the dereference of a null pointer:
    serializing it is making its calls, and the recording Serializer
    returns. *)
Theorem unique_ptr_serialize_needs_owner :
  (forall (W : Type) (serializer : Serializer W) (w : W),
     serialize (VBox None) w = Err NullDereference)
  /\ (forall (W : Type) (serializer : Serializer W) (v : value) (w : W),
        serialize (VBox (Some v)) w = serialize v w)
  /\ (forall v : value,
        owners_present v = true ->
        exists calls : list call,
          (forall (W : Type) (serializer : Serializer W) (w : W),
             serialize v w = replay_calls calls w)
          /\ forall w : list call, serialize v w = Ok (w ++ calls)).
Proof.
  split; [reflexivity | split; [reflexivity |]].
  intros v present.
  destruct (emits_total v present) as [calls run].
  exists calls. split; [exact run |].
  intros w. apply emits_recorded. exact run.
Qed.

Lemma unique_ptr_serialize_needs_owner_witness :
  owners_present (VBox (Some (VSeq [VBox (Some (VU16 9))]))) = true
  /\ exists calls : list call,
       (forall (W : Type) (serializer : Serializer W) (w : W),
          serialize (VBox (Some (VSeq [VBox (Some (VU16 9))]))) w
          = replay_calls calls w)
       /\ forall w : list call,
            serialize (VBox (Some (VSeq [VBox (Some (VU16 9))]))) w
            = Ok (w ++ calls).
Proof.
  split.
  - reflexivity.
  - apply (proj2 (proj2 unique_ptr_serialize_needs_owner)). reflexivity.
Defined.

(** C1.  [operator==] on the 128-bit structs compares the high halves and
    then the low half of the left operand with itself: two values that
    differ in the low half only compare equal. *)
Theorem operator_eq_low_half_unchecked :
  uint128_eq {| u_high := 0; u_low := 0 |} {| u_high := 0; u_low := 1 |} = true
  /\ int128_eq {| i_high := 0; i_low := 0 |} {| i_high := 0; i_low := 1 |}
     = true.
Proof. split; reflexivity. Qed.

(** The comparison never looks at the low half of the right operand. *)
Lemma uint128_eq_high_only (lhs rhs : uint128_t) :
  uint128_eq lhs rhs = (u_high lhs =? u_high rhs).
Proof. unfold uint128_eq. now rewrite N.eqb_refl, andb_true_r. Qed.

Lemma int128_eq_high_only (lhs rhs : int128_t) :
  int128_eq lhs rhs = (i_high lhs =? i_high rhs)%Z.
Proof. unfold int128_eq. now rewrite N.eqb_refl, andb_true_r. Qed.

(** ** Equality of types *)

Lemma shape_eqb_eq (a : shape) : forall b, shape_eqb a b = true <-> a = b.
Proof.
  induction a using shape_induction; intros b.
  - destruct a; try discriminate; destruct b; simpl;
      split; intros same; try reflexivity; discriminate.
  - destruct b; simpl; try (split; intros; discriminate).
    rewrite IHa. split; congruence.
  - destruct b; simpl; try (split; intros; discriminate).
    rewrite IHa. split; congruence.
  - destruct b; simpl; try (split; intros; discriminate).
    rewrite IHa. split; congruence.
  - destruct b; simpl; try (split; intros; discriminate).
    rewrite andb_true_iff, IHa, Nat.eqb_eq. split.
    + intros [-> ->]; reflexivity.
    + intros same; injection same; auto.
  - destruct b; simpl; try (split; intros; discriminate).
    rewrite andb_true_iff, IHa1, IHa2. split.
    + intros [-> ->]; reflexivity.
    + intros same; injection same; auto.
  - destruct b as [| | | | | | | | | | | | | | | | | | | | |Bs|];
      simpl; try (split; intros; discriminate).
    enough (lists : forall Bs,
      (fix all2 (As Bs : list shape) : bool :=
         match As, Bs with
         | [], [] => true
         | x :: As1, y :: Bs1 => shape_eqb x y && all2 As1 Bs1
         | _, _ => false
         end) Ts Bs = true <-> Ts = Bs).
    { rewrite lists. split; congruence. }
    clear Bs. induction H as [|T Ts here _ IH]; intros [|B Bs];
      try (split; intros; (reflexivity || discriminate)).
    rewrite andb_true_iff, here, IH. split.
    + intros [-> ->]; reflexivity.
    + intros same; injection same; auto.
  - destruct b as [| | | | | | | | | | | | | | | | | | | | | |Bs];
      simpl; try (split; intros; discriminate).
    enough (lists : forall Bs,
      (fix all2 (As Bs : list shape) : bool :=
         match As, Bs with
         | [], [] => true
         | x :: As1, y :: Bs1 => shape_eqb x y && all2 As1 Bs1
         | _, _ => false
         end) Ts Bs = true <-> Ts = Bs).
    { rewrite lists. split; congruence. }
    clear Bs. induction H as [|T Ts here _ IH]; intros [|B Bs];
      try (split; intros; (reflexivity || discriminate)).
    rewrite andb_true_iff, here, IH. split.
    + intros [-> ->]; reflexivity.
    + intros same; injection same; auto.
Qed.

Lemma shape_eqb_refl (a : shape) : shape_eqb a a = true.
Proof. now apply shape_eqb_eq. Qed.

Lemma existsb_shape_eqb_false (T : shape) (Ts : list shape) :
  existsb (shape_eqb T) Ts = false -> ~ In T Ts.
Proof.
  intros none found.
  assert (some : existsb (shape_eqb T) Ts = true).
  { apply existsb_exists. exists T. split; [exact found | apply shape_eqb_refl]. }
  congruence.
Qed.

(** In a list without repeats the converting constructor picks the
    position the type was taken from. *)
Lemma alternative_index_nth (Ts : list shape) :
  distinct Ts = true ->
  forall (i : nat) (T : shape),
    nth_error Ts i = Some T -> alternative_index Ts T = i.
Proof.
  induction Ts as [|T1 Ts IH]; intros once i T at_i.
  - destruct i; discriminate.
  - simpl in once. apply andb_true_iff in once as [fresh once].
    apply negb_true_iff in fresh. simpl.
    destruct i as [|i]; simpl in at_i.
    + injection at_i as <-. now rewrite shape_eqb_refl.
    + destruct (shape_eqb T T1) eqn:same.
      * apply shape_eqb_eq in same; subst T1.
        apply existsb_shape_eqb_false in fresh.
        elim fresh. eapply nth_error_In; eassumption.
      * f_equal. apply IH; assumption.
Qed.

Lemma array_at_map {A B : Type} (f : A -> B) (l : list A) (index : N) (a : A) :
  nth_error l (N.to_nat index) = Some a ->
  array_at (map f l) index = Ok (f a).
Proof.
  intros at_i. unfold array_at. rewrite length_map.
  assert (inside : (N.to_nat index < List.length l)%nat).
  { apply nth_error_Some. congruence. }
  assert (below : (index <? N.of_nat (List.length l)) = true).
  { apply N.ltb_lt. lia. }
  rewrite below, nth_error_map, at_i. reflexivity.
Qed.

Lemma array_at_beyond {A : Type} (l : list A) (index : N) :
  N.of_nat (List.length l) <= index -> array_at l index = Err OutOfRange.
Proof.
  intros beyond. unfold array_at.
  assert (not_below : (index <? N.of_nat (List.length l)) = false).
  { apply N.ltb_ge. exact beyond. }
  now rewrite not_below.
Qed.

(** ** The claims about options, variants and tuples *)

(** C4 as the code has it.  After the one-byte tag is read: tag 0 is the
    empty option and the Deserializer is left as the read left it; tag 1 is
    the option holding the decoded inner value, with the failures of the
    inner decoder passed on; any other tag throws the string literal
    [invalid option tag]. *)
Theorem option_tag_validity {R : Type} {deserializer : Deserializer R}
  (key_lt : value -> value -> bool) (order : argument_order) (T : shape)
  (de de1 : R) (tag : N) :
  deserialize_u8 de = Ok (tag, de1) ->
  (tag = 0 ->
   deserialize key_lt order (TOption T) de = Ok (VOption None, de1))
  /\ (tag = 1 ->
      deserialize key_lt order (TOption T) de
      = match deserialize key_lt order T de1 with
        | Ok (x, de2) => Ok (VOption (Some x), de2)
        | Err e => Err e
        end)
  /\ (tag <> 0 -> tag <> 1 ->
      deserialize key_lt order (TOption T) de
      = Err (Thrown "invalid option tag")).
Proof.
  intros read. cbn [deserialize]. rewrite read. cbn [bind].
  repeat split.
  - intros ->. reflexivity.
  - intros ->. simpl.
    destruct (deserialize key_lt order T de1) as [[x de2]|e]; reflexivity.
  - intros not0 not1.
    apply N.eqb_neq in not0, not1. now rewrite not0, not1.
Qed.

Lemma option_tag_validity_witness :
  deserialize_u8 [CU8 1; CU16 513; CUnit] = Ok (1, [CU16 513; CUnit])
  /\ deserialize u8_lt LeftToRight (TOption TU16) [CU8 1; CU16 513; CUnit]
     = Ok (VOption (Some (VU16 513)), [CUnit]).
Proof.
  split.
  - reflexivity.
  - assert (read : deserialize_u8 [CU8 1; CU16 513; CUnit]
                   = Ok (1, [CU16 513; CUnit])) by reflexivity.
    apply (proj1 (proj2 (option_tag_validity u8_lt LeftToRight TU16 _ _ 1
                           read))).
    reflexivity.
Defined.

(** C4 as the spec words it fails: tag 2 throws [invalid option tag], which
    is not the message [invalid option discriminant]. *)
Lemma option_tag_message :
  deserialize u8_lt LeftToRight (TOption TU8) [CU8 2; CU8 10]
  = Err (Thrown "invalid option tag")
  /\ Err (A := value * list call) (Thrown "invalid option tag")
     <> Err (Thrown "invalid option discriminant").
Proof. split; [reflexivity | discriminate]. Qed.

(** C5 as the code has it.  For a variant whose alternatives are distinct
    types, after the variant index is read: an index below the number of
    alternatives runs the case of that index, which decodes the payload of
    that alternative and returns the variant holding it at that index, with
    the failures of the payload decoder passed on; an index at or above the
    number of alternatives leaves through the [std::out_of_range] of
    [std::array::at]. *)
Theorem variant_index_validity {R : Type} {deserializer : Deserializer R}
  (key_lt : value -> value -> bool) (order : argument_order)
  (Ts : list shape) (de de1 : R) (index : N) :
  distinct Ts = true ->
  deserialize_variant_index de = Ok (index, de1) ->
  (forall T : shape,
     nth_error Ts (N.to_nat index) = Some T ->
     deserialize key_lt order (TSum Ts) de
     = match deserialize key_lt order T de1 with
       | Ok (payload, de2) => Ok (VSum (N.to_nat index) payload, de2)
       | Err e => Err e
       end)
  /\ (N.of_nat (List.length Ts) <= index ->
      deserialize key_lt order (TSum Ts) de = Err OutOfRange).
Proof.
  intros once read. cbn [deserialize]. rewrite read. cbn [bind]. split.
  - intros T at_index.
    rewrite (array_at_map _ Ts index T at_index). cbn [bind].
    unfold make_case.
    rewrite (alternative_index_nth Ts once _ _ at_index).
    destruct (deserialize key_lt order T de1) as [[payload de2]|e];
      reflexivity.
  - intros beyond. rewrite array_at_beyond; [reflexivity |].
    now rewrite length_map.
Qed.

Lemma variant_index_validity_witness :
  distinct [TUnit; TU32] = true
  /\ deserialize_variant_index [CVariantIndex 1; CU32 42]
     = Ok (1, [CU32 42])
  /\ deserialize u8_lt LeftToRight (TSum [TUnit; TU32])
       [CVariantIndex 1; CU32 42]
     = Ok (VSum 1 (VU32 42), []).
Proof.
  split; [reflexivity | split; [reflexivity |]].
  assert (read : deserialize_variant_index [CVariantIndex 1; CU32 42]
                 = Ok (1, [CU32 42])) by reflexivity.
  assert (once : distinct [TUnit; TU32] = true) by reflexivity.
  apply (proj1 (variant_index_validity u8_lt LeftToRight [TUnit; TU32] _ _ 1
                  once read) TU32).
  reflexivity.
Defined.

(** C5 as the spec words it fails: against a variant of two alternatives,
    index 2 leaves through the [std::out_of_range] of [std::array::at],
    which is not a thrown message [variant index out of range]; the header
    raises no error with that text. *)
Lemma variant_index_message :
  deserialize u8_lt LeftToRight (TSum [TUnit; TU32])
    [CVariantIndex 2; CU32 42]
  = Err OutOfRange
  /\ Err (A := value * list call) OutOfRange
     <> Err (Thrown "variant index out of range").
Proof. split; [reflexivity | discriminate]. Qed.

(** C6 on a compiler that evaluates call arguments from the last to the
    first.  The decoder of the second component of a
    [std::tuple<uint8_t, uint8_t>] runs first, so the two bytes come out
    swapped; with components of different types the first call asked of the
    Deserializer is the one of the second component, and it fails. *)
Theorem tuple_components_out_of_order :
  deserialize u8_lt RightToLeft (TTuple [TU8; TU8]) [CU8 1; CU8 2]
  = Ok (VTuple [VU8 2; VU8 1], [])
  /\ deserialize u8_lt RightToLeft (TTuple [TU8; TU16]) [CU8 1; CU16 2]
     = Err mismatch.
Proof. split; reflexivity. Qed.

(** C3 on the same compiler.  The calls recorded by serializing the tuple
    [(1, 2)] deserialize to the tuple [(2, 1)]. *)
Theorem tuple_round_trip_broken :
  exists calls : list call,
    serialize (VTuple [VU8 1; VU8 2]) [] = Ok calls
    /\ has_shape u8_lt (VTuple [VU8 1; VU8 2]) (TTuple [TU8; TU8]) = true
    /\ deserialize u8_lt RightToLeft (TTuple [TU8; TU8]) calls
       = Ok (VTuple [VU8 2; VU8 1], [])
    /\ VTuple [VU8 2; VU8 1] <> VTuple [VU8 1; VU8 2].
Proof.
  exists [CU8 1; CU8 2].
  repeat split; try reflexivity. discriminate.
Qed.

(** ** Sequences *)

Section VectorLoop.
Context {R : Type} (body : R -> outcome (value * R)).

Lemma vector_loop_decodes (de de2 : R) (items : list value) :
  decodes_items body de items de2 ->
  forall result,
    vector_loop body (List.length items) result de = Ok (result ++ items, de2).
Proof.
  induction 1 as [de|de de1 de2 item items here _ IH]; intros result; simpl.
  - now rewrite app_nil_r.
  - rewrite here. cbn [bind]. rewrite IH, <- app_assoc. reflexivity.
Qed.

Lemma vector_loop_decoded (len : nat) :
  forall (result : list value) (de : R) (final : list value) (de2 : R),
    vector_loop body len result de = Ok (final, de2) ->
    exists items,
      final = result ++ items
      /\ List.length items = len
      /\ decodes_items body de items de2.
Proof.
  induction len as [|len IH]; intros result de final de2 run; simpl in run.
  - injection run as <- <-. exists []. rewrite app_nil_r.
    repeat split. constructor.
  - destruct (body de) as [[item de1]|e] eqn:here; [| discriminate].
    cbn [bind] in run. apply IH in run as [items [-> [<- rest]]].
    exists (item :: items). rewrite <- app_assoc. repeat split.
    econstructor; eassumption.
Qed.

End VectorLoop.

(** C7.  A vector of [k] elements makes the call [serialize_len (k)] and
    then the calls of its elements, first to last.  Reading it back, once
    [deserialize_len] has returned [len]: elements that decode one after the
    other, [len] of them, are what the rule returns, in that order; whatever
    the rule returns was decoded that way, exactly [len] elements; and with
    [len = 0] the result is empty and the Deserializer is left as the
    length read left it. *)
Theorem sequence_length_fidelity :
  (forall (items : list value) (each : list (list call)),
     Forall2 emits items each ->
     emits (VSeq items) (CLen (N.of_nat (List.length items)) :: concat each))
  /\ (forall (R : Type) (deserializer : Deserializer R)
        (key_lt : value -> value -> bool) (order : argument_order)
        (T : shape) (de de1 : R) (len : N),
        deserialize_len de = Ok (len, de1) ->
        (forall (items : list value) (de2 : R),
           List.length items = N.to_nat len ->
           decodes_items (deserialize key_lt order T) de1 items de2 ->
           deserialize key_lt order (TSeq T) de = Ok (VSeq items, de2))
        /\ (forall (v : value) (de2 : R),
              deserialize key_lt order (TSeq T) de = Ok (v, de2) ->
              exists items,
                v = VSeq items
                /\ List.length items = N.to_nat len
                /\ decodes_items (deserialize key_lt order T) de1 items de2)
        /\ (len = 0 ->
            deserialize key_lt order (TSeq T) de = Ok (VSeq [], de1))).
Proof.
  split.
  - intros items each pairs W serializer w.
    rewrite replay_calls_cons. cbn [serialize replay_call].
    apply bind_ext; intros w1. clear w. revert w1.
    induction pairs as [|item calls items each run _ IH]; intros w.
    + reflexivity.
    + simpl. rewrite replay_calls_app, run. apply bind_ext. exact IH.
  - intros R deserializer key_lt order T de de1 len read.
    cbn [deserialize]. rewrite read. cbn [bind]. repeat split.
    + intros items de2 count chain. rewrite <- count.
      now rewrite (vector_loop_decodes _ _ _ _ chain).
    + intros v de2 run.
      destruct (vector_loop (deserialize key_lt order T) (N.to_nat len) []
                  de1) as [[final de3]|e] eqn:loop; [| discriminate].
      cbn [bind] in run. injection run as <- <-.
      apply vector_loop_decoded in loop as [items [-> [count chain]]].
      exists items. repeat split; assumption.
    + intros ->. reflexivity.
Qed.

Lemma sequence_length_fidelity_witness :
  deserialize_len [CLen 2; CU8 4; CU8 5; CBool true]
  = Ok (2, [CU8 4; CU8 5; CBool true])
  /\ decodes_items (deserialize u8_lt LeftToRight TU8)
       [CU8 4; CU8 5; CBool true] [VU8 4; VU8 5] [CBool true]
  /\ deserialize u8_lt LeftToRight (TSeq TU8)
       [CLen 2; CU8 4; CU8 5; CBool true]
     = Ok (VSeq [VU8 4; VU8 5], [CBool true]).
Proof.
  assert (read : deserialize_len [CLen 2; CU8 4; CU8 5; CBool true]
                 = Ok (2, [CU8 4; CU8 5; CBool true])) by reflexivity.
  assert (chain : decodes_items (deserialize u8_lt LeftToRight TU8)
                    [CU8 4; CU8 5; CBool true] [VU8 4; VU8 5] [CBool true]).
  { eapply decodes_next_item; [reflexivity |].
    eapply decodes_next_item; [reflexivity |].
    apply decodes_no_item. }
  split; [exact read | split; [exact chain |]].
  apply (proj1 (proj2 sequence_length_fidelity _ _ u8_lt LeftToRight TU8
                  _ _ 2 read) [VU8 4; VU8 5] [CBool true]).
  - reflexivity.
  - exact chain.
Defined.

(** ** Maps *)

Section MapInsert.
Variable key_lt : value -> value -> bool.

Lemma map_insert_keeps (k v : value) (m : list (value * value))
  (e : value * value) :
  In e m -> In e (map_insert key_lt k v m).
Proof.
  induction m as [|entry m IH]; intros found; simpl.
  - destruct found.
  - destruct (key_lt k (fst entry)); [now right |].
    destruct (key_lt (fst entry) k); [| exact found].
    destruct found as [<-|found]; [now left | right; auto].
Qed.

Lemma map_insert_from (k v : value) (m : list (value * value))
  (e : value * value) :
  In e (map_insert key_lt k v m) -> e = (k, v) \/ In e m.
Proof.
  induction m as [|entry m IH]; simpl.
  - intros [<-|[]]. now left.
  - destruct (key_lt k (fst entry)).
    + intros [<-|found]; [now left | now right].
    + destruct (key_lt (fst entry) k).
      * intros [<-|found]; [right; now left |].
        destruct (IH found); [now left | right; now right].
      * intros found. now right.
Qed.

Lemma map_insert_adds (k v : value) (m : list (value * value)) :
  (forall e, In e m -> key_equiv key_lt k (fst e) = false) ->
  In (k, v) (map_insert key_lt k v m).
Proof.
  induction m as [|entry m IH]; intros fresh; simpl.
  - now left.
  - destruct (key_lt k (fst entry)) eqn:before; [now left |].
    destruct (key_lt (fst entry) k) eqn:after.
    + right. apply IH. intros e found. apply fresh. now right.
    + specialize (fresh entry (or_introl eq_refl)).
      unfold key_equiv in fresh. rewrite before, after in fresh.
      discriminate.
Qed.

Lemma insert_all_keeps (entries m : list (value * value))
  (e : value * value) :
  In e m -> In e (insert_all key_lt entries m).
Proof.
  revert m. induction entries as [|entry entries IH]; intros m found.
  - exact found.
  - apply IH. now apply map_insert_keeps.
Qed.

Lemma insert_all_from (entries m : list (value * value))
  (e : value * value) :
  In e (insert_all key_lt entries m) -> In e entries \/ In e m.
Proof.
  revert m. induction entries as [|entry entries IH]; intros m found.
  - now right.
  - apply IH in found as [found|found]; [left; now right |].
    apply map_insert_from in found as [->|found].
    + left. left. now destruct entry.
    + now right.
Qed.

Hypothesis key_lt_irreflexive : forall a, key_lt a a = false.
Hypothesis key_lt_transitive :
  forall a b c, key_lt a b = true -> key_lt b c = true -> key_lt a c = true.

Lemma forallb_map_insert (f : value * value -> bool) (k v : value)
  (m : list (value * value)) :
  f (k, v) = true -> forallb f m = true ->
  forallb f (map_insert key_lt k v m) = true.
Proof.
  intros new. induction m as [|entry m IH]; simpl; intros old.
  - now rewrite new.
  - apply andb_true_iff in old as [here there].
    destruct (key_lt k (fst entry)); simpl.
    + now rewrite new, here, there.
    + destruct (key_lt (fst entry) k); simpl.
      * now rewrite here, IH.
      * now rewrite here, there.
Qed.

Lemma map_insert_ascending (k v : value) (m : list (value * value)) :
  ascending key_lt m = true -> ascending key_lt (map_insert key_lt k v m) = true.
Proof.
  induction m as [|entry m IH]; simpl; intros sorted.
  - reflexivity.
  - apply andb_true_iff in sorted as [above sorted].
    destruct (key_lt k (fst entry)) eqn:before; simpl.
    + rewrite before, above, sorted. simpl.
      rewrite andb_true_r.
      apply forallb_forall. intros later found.
      eapply key_lt_transitive; [exact before |].
      now apply (proj1 (forallb_forall _ _) above).
    + destruct (key_lt (fst entry) k) eqn:after; simpl.
      * rewrite IH by exact sorted. rewrite andb_true_r.
        now apply forallb_map_insert.
      * now rewrite above, sorted.
Qed.

Lemma insert_all_ascending (entries m : list (value * value)) :
  ascending key_lt m = true ->
  ascending key_lt (insert_all key_lt entries m) = true.
Proof.
  revert m. induction entries as [|entry entries IH]; intros m sorted.
  - exact sorted.
  - apply IH. now apply map_insert_ascending.
Qed.

(** An ascending map holds one value per key. *)
Lemma ascending_one_value (m : list (value * value)) (k v v' : value) :
  ascending key_lt m = true -> In (k, v) m -> In (k, v') m -> v' = v.
Proof.
  induction m as [|entry m IH]; simpl; intros sorted first second.
  - destruct first.
  - apply andb_true_iff in sorted as [above sorted].
    assert (clash : forall x, entry = (k, x) -> forall y, In (k, y) m -> False).
    { intros x -> y found.
      apply (proj1 (forallb_forall _ _) above) in found. simpl in found.
      now rewrite key_lt_irreflexive in found. }
    destruct first as [first|first], second as [second|second].
    + congruence.
    + elim (clash v first v' second).
    + elim (clash v' second v first).
    + now apply IH.
Qed.

End MapInsert.

Section MapLoop.
Context {R : Type} (key_lt : value -> value -> bool)
  (key_body value_body : R -> outcome (value * R)).

Lemma map_loop_decodes (de de2 : R) (entries : list (value * value)) :
  decodes_entries key_body value_body de entries de2 ->
  forall result,
    map_loop key_lt key_body value_body (List.length entries) result de
    = Ok (insert_all key_lt entries result, de2).
Proof.
  induction 1 as [de|de de1 de2 de3 k v entries kread vread _ IH];
    intros result; simpl.
  - reflexivity.
  - rewrite kread. cbn [bind]. rewrite vread. cbn [bind]. apply IH.
Qed.

End MapLoop.

Lemma u8_lt_irreflexive (a : value) : u8_lt a a = false.
Proof. destruct a; try reflexivity. apply N.ltb_irrefl. Qed.

Lemma u8_lt_transitive (a b c : value) :
  u8_lt a b = true -> u8_lt b c = true -> u8_lt a c = true.
Proof.
  destruct a; try discriminate. destruct b; try discriminate.
  destruct c; try discriminate. simpl.
  rewrite !N.ltb_lt. lia.
Qed.

(** C2 as the code has it.  Once the length is read and the announced
    entries decode, the map rule returns a map, duplicate keys or not; an
    entry whose key no earlier entry had is in that map with its own value,
    and no later entry with the same key replaces it: the first entry read
    for a key wins. *)
Theorem map_first_entry_wins {R : Type} {deserializer : Deserializer R}
  (key_lt : value -> value -> bool) (order : argument_order) (K V : shape)
  (de de1 de2 : R) (len : N) (pre post : list (value * value))
  (k v : value) :
  (forall a, key_lt a a = false) ->
  (forall a b c,
     key_lt a b = true -> key_lt b c = true -> key_lt a c = true) ->
  deserialize_len de = Ok (len, de1) ->
  N.to_nat len = List.length (pre ++ (k, v) :: post) ->
  decodes_entries (deserialize key_lt order K) (deserialize key_lt order V)
    de1 (pre ++ (k, v) :: post) de2 ->
  (forall e, In e pre -> key_equiv key_lt k (fst e) = false) ->
  exists m : list (value * value),
    deserialize key_lt order (TMap K V) de = Ok (VMap m, de2)
    /\ In (k, v) m
    /\ forall v', In (k, v') m -> v' = v.
Proof.
  intros irreflexive transitive read count chain fresh.
  exists (insert_all key_lt (pre ++ (k, v) :: post) []).
  assert (held : In (k, v) (insert_all key_lt (pre ++ (k, v) :: post) [])).
  { unfold insert_all. rewrite fold_left_app. cbn [fold_left fst snd].
    apply insert_all_keeps. apply map_insert_adds.
    intros e found. apply fresh.
    apply insert_all_from in found as [found|[]]. exact found. }
  split; [| split; [exact held |]].
  - cbn [deserialize]. rewrite read. cbn [bind]. rewrite count.
    now rewrite (map_loop_decodes key_lt _ _ _ _ _ chain).
  - intros v' other.
    eapply (ascending_one_value key_lt irreflexive); [| exact held | exact other].
    now apply insert_all_ascending.
Qed.

Lemma map_first_entry_wins_witness :
  exists m : list (value * value),
    deserialize u8_lt LeftToRight (TMap TU8 TBool)
      [CLen 3; CU8 1; CBool true; CU8 5; CBool false; CU8 5; CBool true]
    = Ok (VMap m, [])
    /\ In (VU8 5, VBool false) m
    /\ forall v', In (VU8 5, v') m -> v' = VBool false.
Proof.
  assert (read : deserialize_len
                   [CLen 3; CU8 1; CBool true; CU8 5; CBool false;
                    CU8 5; CBool true]
                 = Ok (3, [CU8 1; CBool true; CU8 5; CBool false;
                           CU8 5; CBool true])) by reflexivity.
  apply (map_first_entry_wins u8_lt LeftToRight TU8 TBool _ _ [] 3
           [(VU8 1, VBool true)] [(VU8 5, VBool true)] (VU8 5) (VBool false)
           u8_lt_irreflexive u8_lt_transitive read).
  - reflexivity.
  - eapply decodes_next_entry; [reflexivity | reflexivity |].
    eapply decodes_next_entry; [reflexivity | reflexivity |].
    eapply decodes_next_entry; [reflexivity | reflexivity |].
    apply decodes_no_entry.
  - intros e [<-|[]]. reflexivity.
Defined.

(** C2 as the spec words it fails: of two entries with key 1, read with
    values 10 and then 20, the decoded map holds 10. *)
Lemma map_last_entry_does_not_win :
  deserialize u8_lt LeftToRight (TMap TU8 TU8)
    [CLen 2; CU8 1; CU8 10; CU8 1; CU8 20]
  = Ok (VMap [(VU8 1, VU8 10)], [])
  /\ map_find u8_lt (VU8 1) [(VU8 1, VU8 10)] = Some (VU8 10)
  /\ ~ In (VU8 1, VU8 20) [(VU8 1, VU8 10)].
Proof.
  split; [reflexivity | split; [reflexivity |]].
  intros [same|[]]. discriminate.
Qed.

(** ** Round trips through the recorded calls *)

Lemma emits_leaf (v : value) : leaf_value v = true -> emits v (leaf_calls v).
Proof.
  intros is_leaf W serializer w.
  destruct v; try discriminate; simpl leaf_calls;
    rewrite replay_calls_one; reflexivity.
Qed.

Lemma for_each_emits_each (items : list value) (each : list (list call)) :
  Forall2 emits items each ->
  forall (W : Type) (serializer : Serializer W) (w : W),
    for_each serialize items w = replay_calls (concat each) w.
Proof.
  induction 1 as [|item calls items each run _ IH]; intros W serializer w.
  - reflexivity.
  - simpl. rewrite replay_calls_app, run. apply bind_ext. intros w1. apply IH.
Qed.

Lemma replays_items (body : list call -> outcome (value * list call))
  (items : list value) (each : list (list call)) :
  Forall2 (replays body) items each ->
  forall rest, decodes_items body (concat each ++ rest) items rest.
Proof.
  induction 1 as [|item calls items each back _ IH]; intros rest; simpl.
  - constructor.
  - rewrite <- app_assoc. econstructor; [apply back | apply IH].
Qed.

Lemma array_loop_decodes {R : Type} (body : R -> outcome (value * R))
  (de de2 : R) (items : list value) :
  decodes_items body de items de2 ->
  array_loop body (List.length items) de = Ok (items, de2).
Proof.
  induction 1 as [de|de de1 de2 item items here _ IH]; simpl.
  - reflexivity.
  - rewrite here. cbn [bind]. rewrite IH. reflexivity.
Qed.

Section AscendingMaps.
Variable key_lt : value -> value -> bool.
Hypothesis key_lt_irreflexive : forall a, key_lt a a = false.
Hypothesis key_lt_transitive :
  forall a b c, key_lt a b = true -> key_lt b c = true -> key_lt a c = true.

Lemma key_lt_asymmetric (a b : value) :
  key_lt a b = true -> key_lt b a = false.
Proof.
  intros below. destruct (key_lt b a) eqn:above; [| reflexivity].
  rewrite <- (key_lt_irreflexive a). symmetry.
  eapply key_lt_transitive; eassumption.
Qed.

(** A key above every key of the map goes to the end. *)
Lemma map_insert_last (k v : value) (m : list (value * value)) :
  forallb (fun e => key_lt (fst e) k) m = true ->
  map_insert key_lt k v m = m ++ [(k, v)].
Proof.
  induction m as [|entry m IH]; simpl; intros below.
  - reflexivity.
  - apply andb_true_iff in below as [here there].
    rewrite (key_lt_asymmetric _ _ here), here, IH by exact there.
    reflexivity.
Qed.

Lemma ascending_app (front back : list (value * value)) :
  ascending key_lt (front ++ back) = true ->
  ascending key_lt front = true
  /\ ascending key_lt back = true
  /\ forall a b, In a front -> In b back -> key_lt (fst a) (fst b) = true.
Proof.
  induction front as [|entry front IH]; simpl; intros sorted.
  - repeat split; [exact sorted | intros a b []].
  - apply andb_true_iff in sorted as [above sorted].
    rewrite forallb_app in above.
    apply andb_true_iff in above as [above_front above_back].
    destruct (IH sorted) as [sorted_front [sorted_back across]].
    rewrite above_front, sorted_front. repeat split; [exact sorted_back |].
    intros a b [<-|found] there; [| now apply across].
    now apply (proj1 (forallb_forall _ _) above_back).
Qed.

(** Inserting the entries of an ascending map in their order rebuilds it. *)
Lemma insert_all_ascending_same (entries m : list (value * value)) :
  ascending key_lt (m ++ entries) = true ->
  insert_all key_lt entries m = m ++ entries.
Proof.
  revert m. induction entries as [|entry entries IH]; intros m sorted.
  - now rewrite app_nil_r.
  - unfold insert_all. cbn [fold_left].
    assert (last : map_insert key_lt (fst entry) (snd entry) m
                   = m ++ [entry]).
    { rewrite map_insert_last; [now destruct entry |].
      apply forallb_forall. intros e found.
      destruct (ascending_app _ _ sorted) as [_ [_ across]].
      apply across; [exact found | now left]. }
    rewrite last. fold (insert_all key_lt entries (m ++ [entry])).
    rewrite IH; rewrite <- app_assoc; [reflexivity | exact sorted].
Qed.

End AscendingMaps.

Lemma replays_entries
  (key_body value_body : list call -> outcome (value * list call))
  (entries : list (value * value)) (each : list (list call * list call)) :
  Forall2 (fun e c => replays key_body (fst e) (fst c)
                      /\ replays value_body (snd e) (snd c)) entries each ->
  forall rest,
    decodes_entries key_body value_body
      (concat (map (fun c => fst c ++ snd c) each) ++ rest) entries rest.
Proof.
  induction 1 as [|[k v] [kc vc] entries each [kback vback] _ IH];
    intros rest; simpl.
  - constructor.
  - rewrite <- !app_assoc. simpl in kback, vback.
    econstructor; [apply kback | apply vback | apply IH].
Qed.

Lemma for_each_entries_emit_each (entries : list (value * value))
  (each : list (list call * list call)) :
  Forall2 (fun e c => emits (fst e) (fst c) /\ emits (snd e) (snd c))
    entries each ->
  forall (W : Type) (serializer : Serializer W) (w : W),
    for_each (fun item w2 =>
                w3 <- serialize (fst item) w2 ;; serialize (snd item) w3)
             entries w
    = replay_calls (concat (map (fun c => fst c ++ snd c) each)) w.
Proof.
  induction 1 as [|e c entries each [krun vrun] _ IH]; intros W serializer w.
  - reflexivity.
  - cbn [for_each map concat].
    rewrite bind_assoc, !replay_calls_app, krun, bind_assoc.
    apply bind_ext; intros w1.
    rewrite vrun. apply bind_ext; intros w2. apply IH.
Qed.

Lemma Forall_choose {A B : Type} (Q : A -> Prop) (S : A -> B -> Prop)
  (l : list A) :
  Forall (fun x => Q x -> exists c, S x c) l ->
  Forall Q l -> exists cs, Forall2 S l cs.
Proof.
  induction 1 as [|x l step _ IH]; intros all.
  - exists []. constructor.
  - inversion all as [|? ? here there]; subst.
    destruct (step here) as [c holds], (IH there) as [cs hold].
    exists (c :: cs). now constructor.
Qed.

Lemma forallb_Forall_true {A : Type} (f : A -> bool) (l : list A) :
  forallb f l = true -> Forall (fun x => f x = true) l.
Proof. intros all. apply Forall_forall. now apply forallb_forall. Qed.

Section RoundTrip.
Variable key_lt : value -> value -> bool.
Hypothesis key_lt_irreflexive : forall a, key_lt a a = false.
Hypothesis key_lt_transitive :
  forall a b c, key_lt a b = true -> key_lt b c = true -> key_lt a c = true.

Local Abbreviation decode := (deserialize key_lt LeftToRight).

Lemma round_trip_calls (v : value) :
  forall T : shape,
    has_shape key_lt v T = true -> instantiable T = true ->
    exists calls : list call, emits v calls /\ replays (decode T) v calls.
Proof.
  induction v using value_induction; intros T typed inst.
  - exists (leaf_calls v). split; [now apply emits_leaf |].
    intros rest.
    destruct v; try discriminate; destruct T; try discriminate; reflexivity.
  - destruct T; discriminate.
  - destruct T; try discriminate. simpl in typed, inst.
    destruct (IHv T typed inst) as [calls [run back]].
    exists calls. split; [exact run |].
    intros rest. cbn [deserialize]. now rewrite back.
  - destruct T; try discriminate. exists [CU8 0]. split.
    + intros W serializer w. now rewrite replay_calls_one.
    + intros rest. reflexivity.
  - destruct T; try discriminate. simpl in typed, inst.
    destruct (IHv T typed inst) as [calls [run back]].
    exists (CU8 1 :: calls). split.
    + intros W serializer w. rewrite replay_calls_cons. cbn [serialize].
      apply bind_ext; intros w1. apply run.
    + intros rest. cbn [deserialize]. simpl. now rewrite back.
  - destruct T; try discriminate. simpl in typed, inst.
    destruct (Forall_choose (fun x => has_shape key_lt x T = true)
                (fun x c => emits x c /\ replays (decode T) x c) items)
      as [each pairs].
    { eapply Forall_impl; [| exact H]. intros x IH here. now apply IH. }
    { now apply forallb_Forall_true. }
    exists (CLen (N.of_nat (List.length items)) :: concat each). split.
    + intros W serializer w. rewrite replay_calls_cons. cbn [serialize].
      apply bind_ext; intros w1. apply for_each_emits_each.
      eapply Forall2_impl; [| exact pairs]. now intros x c [run _].
    + intros rest. cbn [deserialize]. simpl. rewrite Nat2N.id.
      rewrite (vector_loop_decodes (decode T) (concat each ++ rest) rest items).
      * reflexivity.
      * apply replays_items.
        eapply Forall2_impl; [| exact pairs]. now intros x c [_ back].
  - destruct T; try discriminate. simpl in typed, inst.
    apply andb_true_iff in typed as [count typed].
    apply Nat.eqb_eq in count. subst n.
    destruct (Forall_choose (fun x => has_shape key_lt x T = true)
                (fun x c => emits x c /\ replays (decode T) x c) items)
      as [each pairs].
    { eapply Forall_impl; [| exact H]. intros x IH here. now apply IH. }
    { now apply forallb_Forall_true. }
    exists (concat each). split.
    + intros W serializer w. cbn [serialize]. apply for_each_emits_each.
      eapply Forall2_impl; [| exact pairs]. now intros x c [run _].
    + intros rest. cbn [deserialize].
      rewrite (array_loop_decodes (decode T) (concat each ++ rest) rest items).
      * reflexivity.
      * apply replays_items.
        eapply Forall2_impl; [| exact pairs]. now intros x c [_ back].
  - destruct T as [| | | | | | | | | | | | | | | | | | | |K V| |];
      try discriminate.
    simpl in typed, inst.
    apply andb_true_iff in typed as [sorted typed].
    apply andb_true_iff in inst as [instK instV].
    destruct (Forall_choose
                (fun e => has_shape key_lt (fst e) K
                          && has_shape key_lt (snd e) V = true)
                (fun e (c : list call * list call) =>
                   (emits (fst e) (fst c) /\ emits (snd e) (snd c))
                   /\ (replays (decode K) (fst e) (fst c)
                       /\ replays (decode V) (snd e) (snd c))) entries)
      as [each pairs].
    { eapply Forall_impl; [| exact H]. intros e [kIH vIH] both.
      apply andb_true_iff in both as [kt vt].
      destruct (kIH K kt instK) as [kc [krun kback]].
      destruct (vIH V vt instV) as [vc [vrun vback]].
      exists (kc, vc). auto. }
    { now apply forallb_Forall_true. }
    exists (CLen (N.of_nat (List.length entries))
            :: concat (map (fun c => fst c ++ snd c) each)).
    split.
    + intros W serializer w. rewrite replay_calls_cons. cbn [serialize].
      apply bind_ext; intros w1. apply for_each_entries_emit_each.
      eapply Forall2_impl; [| exact pairs]. now intros e c [run _].
    + intros rest. cbn [deserialize]. simpl. rewrite Nat2N.id.
      rewrite (map_loop_decodes key_lt (decode K) (decode V)
                 (concat (map (fun c => fst c ++ snd c) each) ++ rest) rest
                 entries).
      * cbn [bind].
        rewrite (insert_all_ascending_same key_lt key_lt_irreflexive
                   key_lt_transitive entries []) by exact sorted.
        reflexivity.
      * apply replays_entries.
        eapply Forall2_impl; [| exact pairs]. now intros e c [_ back].
  - destruct T as [| | | | | | | | | | | | | | | | | | | | |Ts|];
      try discriminate.
    simpl in typed, inst.
    enough (lists : exists each,
               Forall2 emits items each
               /\ forall rest,
                    in_sequence (map decode Ts) (concat each ++ rest)
                    = Ok (items, rest)).
    { destruct lists as [each [runs back]]. exists (concat each). split.
      - intros W serializer w. cbn [serialize].
        now apply for_each_emits_each.
      - intros rest. cbn [deserialize make_tuple]. now rewrite back. }
    revert Ts typed inst.
    induction H as [|x items IHx _ IHitems]; intros Ts typed inst.
    + destruct Ts; [| discriminate]. exists []. split; [constructor |].
      reflexivity.
    + destruct Ts as [|T1 Ts]; [discriminate |].
      apply andb_true_iff in typed as [here there].
      simpl in inst. apply andb_true_iff in inst as [inst1 insts].
      destruct (IHx T1 here inst1) as [calls [run back]].
      destruct (IHitems Ts there insts) as [each [runs backs]].
      exists (calls :: each). split; [now constructor |].
      intros rest. simpl. rewrite <- app_assoc, back. cbn [bind].
      now rewrite backs.
  - destruct T as [| | | | | | | | | | | | | | | | | | | | | |Ts];
      try discriminate.
    simpl in typed, inst.
    apply andb_true_iff in inst as [once insts].
    destruct (nth_error Ts index) as [T1|] eqn:at_index; [| discriminate].
    assert (inst1 : instantiable T1 = true).
    { apply (proj1 (forallb_forall _ _) insts).
      eapply nth_error_In; eassumption. }
    destruct (IHv T1 typed inst1) as [calls [run back]].
    exists (CVariantIndex (N.of_nat index) :: calls). split.
    + intros W serializer w. rewrite replay_calls_cons. cbn [serialize].
      apply bind_ext; intros w1. apply run.
    + intros rest. cbn [deserialize].
      change (deserialize_variant_index
                ((CVariantIndex (N.of_nat index) :: calls) ++ rest))
        with (Ok (A := N * list call) (N.of_nat index, calls ++ rest)).
      cbn [bind].
      rewrite (array_at_map _ Ts (N.of_nat index) T1)
        by (now rewrite Nat2N.id).
      cbn [bind]. unfold make_case.
      rewrite (alternative_index_nth Ts once _ _ at_index), back.
      reflexivity.
Qed.

End RoundTrip.

(** The round trip, for a compiler that evaluates call arguments from the
    first to the last.  For every type the header can be instantiated at
    and every value of it, with keys compared by a strict order: the calls
    recorded by serializing the value deserialize to the value, and nothing
    is left over. *)
Theorem round_trip_left_to_right (key_lt : value -> value -> bool)
  (v : value) (T : shape) :
  (forall a, key_lt a a = false) ->
  (forall a b c,
     key_lt a b = true -> key_lt b c = true -> key_lt a c = true) ->
  has_shape key_lt v T = true ->
  instantiable T = true ->
  exists calls : list call,
    serialize v [] = Ok calls
    /\ deserialize key_lt LeftToRight T calls = Ok (v, []).
Proof.
  intros irreflexive transitive typed inst.
  destruct (round_trip_calls key_lt irreflexive transitive v T typed inst)
    as [calls [run back]].
  exists calls. split.
  - now apply (emits_recorded v calls []).
  - specialize (back []). now rewrite app_nil_r in back.
Qed.

Lemma round_trip_left_to_right_witness :
  exists calls : list call,
    serialize
      (VMap [(VU8 1, VTuple [VStr "a"; VSum 1 (VU32 42)]);
             (VU8 2, VTuple [VStr "b"; VSum 0 VUnit])]) []
    = Ok calls
    /\ deserialize u8_lt LeftToRight
         (TMap TU8 (TTuple [TStr; TSum [TUnit; TU32]])) calls
       = Ok (VMap [(VU8 1, VTuple [VStr "a"; VSum 1 (VU32 42)]);
                   (VU8 2, VTuple [VStr "b"; VSum 0 VUnit])], []).
Proof.
  apply (round_trip_left_to_right u8_lt _
           (TMap TU8 (TTuple [TStr; TSum [TUnit; TU32]]))
           u8_lt_irreflexive u8_lt_transitive);
    reflexivity.
Defined.

(** ** The argument order shows in tuples only *)

Section LoopsAgree.
Context {R : Type} (key_lt : value -> value -> bool).

Lemma vector_loop_ext (body body' : R -> outcome (value * R)) :
  (forall de, body de = body' de) ->
  forall len result de,
    vector_loop body len result de = vector_loop body' len result de.
Proof.
  intros same. induction len as [|len IH]; intros result de; simpl.
  - reflexivity.
  - rewrite same. apply bind_ext. intros [item de1]. apply IH.
Qed.

Lemma array_loop_ext (body body' : R -> outcome (value * R)) :
  (forall de, body de = body' de) ->
  forall slots de, array_loop body slots de = array_loop body' slots de.
Proof.
  intros same. induction slots as [|slots IH]; intros de; simpl.
  - reflexivity.
  - rewrite same. apply bind_ext. intros [item de1]. now rewrite IH.
Qed.

Lemma map_loop_ext (kb kb' vb vb' : R -> outcome (value * R)) :
  (forall de, kb de = kb' de) -> (forall de, vb de = vb' de) ->
  forall len result de,
    map_loop key_lt kb vb len result de = map_loop key_lt kb' vb' len result de.
Proof.
  intros ksame vsame. induction len as [|len IH]; intros result de; simpl.
  - reflexivity.
  - rewrite ksame. apply bind_ext. intros [key de1]. simpl.
    rewrite vsame. apply bind_ext. intros [val de2]. apply IH.
Qed.

Lemma array_at_map_ext {A : Type} (f g : A -> R -> outcome (value * R))
  (l : list A) (index : N) (de : R) :
  Forall (fun a => forall de1, f a de1 = g a de1) l ->
  bind (array_at (map f l) index) (fun case => case de)
  = bind (array_at (map g l) index) (fun case => case de).
Proof.
  intros same. unfold array_at. rewrite !length_map.
  destruct (index <? N.of_nat (List.length l)); [| reflexivity].
  rewrite !nth_error_map.
  destruct (nth_error l (N.to_nat index)) as [a|] eqn:at_index;
    [| reflexivity].
  simpl. apply (proj1 (Forall_forall _ _) same).
  eapply nth_error_In; eassumption.
Qed.

End LoopsAgree.

Lemma deserialize_orders_agree {R : Type} {deserializer : Deserializer R}
  (key_lt : value -> value -> bool) (order order' : argument_order)
  (T : shape) :
  short_tuples T = true ->
  forall de : R,
    deserialize key_lt order T de = deserialize key_lt order' T de.
Proof.
  induction T using shape_induction; intros short de.
  - destruct T; try discriminate; reflexivity.
  - cbn [deserialize]. now rewrite IHT.
  - cbn [deserialize]. apply bind_ext. intros [tag de1]. simpl.
    destruct (tag =? 0); [reflexivity |].
    destruct (negb (tag =? 1)); [reflexivity |]. now rewrite IHT.
  - cbn [deserialize]. apply bind_ext. intros [len de1]. simpl.
    now rewrite (vector_loop_ext _ _ (IHT short)).
  - cbn [deserialize]. now rewrite (array_loop_ext _ _ (IHT short)).
  - simpl in short. apply andb_true_iff in short as [shortK shortV].
    cbn [deserialize]. apply bind_ext. intros [len de1]. simpl.
    now rewrite (map_loop_ext key_lt _ _ _ _ (IHT1 shortK) (IHT2 shortV)).
  - simpl in short. apply andb_true_iff in short as [few short].
    apply Nat.leb_le in few. cbn [deserialize].
    destruct Ts as [|T1 [|T2 Ts]]; [| | simpl in few; lia].
    + destruct order, order'; reflexivity.
    + inversion H as [|? ? here _]; subst.
      simpl in short. apply andb_true_iff in short as [short1 _].
      specialize (here short1).
      assert (one : forall o,
                 make_tuple o [deserialize key_lt o T1] de
                 = '(item, de1) <- deserialize key_lt o T1 de ;;
                   Ok ([item], de1)).
      { intros o. destruct o; simpl;
          destruct (deserialize _ _ T1 de) as [[item de1]|e]; reflexivity. }
      simpl map. rewrite !one, here. reflexivity.
  - simpl in short. cbn [deserialize]. cbv zeta.
    apply bind_ext. intros [index de1]. simpl.
    apply array_at_map_ext.
    apply Forall_forall. intros T1 found de2. unfold make_case.
    rewrite (proj1 (Forall_forall _ _) H T1 found); [reflexivity |].
    now apply (proj1 (forallb_forall _ _) short).
Qed.

(** Whatever the Deserializer and whatever it holds, a type whose tuples
    have at most one component deserializes the same way under either
    argument order: the order shows in tuples of two or more components
    only. *)
Theorem argument_order_irrelevant {R : Type} {deserializer : Deserializer R}
  (key_lt : value -> value -> bool) (T : shape) (de : R) :
  short_tuples T = true ->
  deserialize key_lt RightToLeft T de = deserialize key_lt LeftToRight T de.
Proof. intros short. now apply deserialize_orders_agree. Qed.

Lemma argument_order_irrelevant_witness :
  short_tuples (TSeq (TTuple [TOption TU8])) = true
  /\ deserialize u8_lt RightToLeft (TSeq (TTuple [TOption TU8]))
       [CLen 2; CU8 1; CU8 7; CU8 0; CUnit]
     = deserialize u8_lt LeftToRight (TSeq (TTuple [TOption TU8]))
         [CLen 2; CU8 1; CU8 7; CU8 0; CUnit].
Proof.
  split.
  - reflexivity.
  - apply (argument_order_irrelevant u8_lt). reflexivity.
Defined.

(** The round trip on every compiler.  For a type the header can be
    instantiated at whose tuples have at most one component, and every value
    of it, the calls recorded by serializing the value deserialize to the
    value under either argument order, and nothing is left over. *)
Theorem round_trip_short_tuples (key_lt : value -> value -> bool)
  (order : argument_order) (v : value) (T : shape) :
  (forall a, key_lt a a = false) ->
  (forall a b c,
     key_lt a b = true -> key_lt b c = true -> key_lt a c = true) ->
  has_shape key_lt v T = true ->
  instantiable T = true ->
  short_tuples T = true ->
  exists calls : list call,
    serialize v [] = Ok calls
    /\ deserialize key_lt order T calls = Ok (v, []).
Proof.
  intros irreflexive transitive typed inst short.
  destruct (round_trip_calls key_lt irreflexive transitive v T typed inst)
    as [calls [run back]].
  exists calls. split.
  - now apply (emits_recorded v calls []).
  - rewrite (deserialize_orders_agree key_lt order LeftToRight T short).
    specialize (back []). now rewrite app_nil_r in back.
Qed.

Lemma round_trip_short_tuples_witness :
  exists calls : list call,
    serialize
      (VSeq [VSum 1 (VOption (Some (VU8 3))); VSum 0 (VTuple [VBool true])]) []
    = Ok calls
    /\ deserialize u8_lt RightToLeft
         (TSeq (TSum [TTuple [TBool]; TOption TU8])) calls
       = Ok (VSeq [VSum 1 (VOption (Some (VU8 3)));
                   VSum 0 (VTuple [VBool true])], []).
Proof.
  apply (round_trip_short_tuples u8_lt RightToLeft _
           (TSeq (TSum [TTuple [TBool]; TOption TU8]))
           u8_lt_irreflexive u8_lt_transitive);
    reflexivity.
Defined.

(** ** Tuples, in the compiler's order *)

Lemma in_sequence_components (key_lt : value -> value -> bool)
  (order : argument_order) (parts : list component) :
  Forall (fun p => replays (deserialize key_lt order (component_type p))
                     (component_value p) (component_calls p)) parts ->
  forall rest,
    in_sequence (map (fun p => deserialize key_lt order (component_type p))
                   parts)
      (concat (map component_calls parts) ++ rest)
    = Ok (map component_value parts, rest).
Proof.
  induction 1 as [|p parts back _ IH]; intros rest; simpl.
  - reflexivity.
  - rewrite <- app_assoc, back. cbn [bind]. now rewrite IH.
Qed.

(** The tuple rule reads the encodings of its components in the order the
    compiler evaluates the arguments of [std::make_tuple]: when each
    component decodes from its own calls, the tuple decodes from those
    calls laid out first to last on a first-to-last compiler, and last to
    first on a last-to-first compiler. *)
Theorem tuple_reads_in_argument_order (key_lt : value -> value -> bool)
  (order : argument_order) (parts : list component) :
  Forall (fun p => replays (deserialize key_lt order (component_type p))
                     (component_value p) (component_calls p)) parts ->
  replays (deserialize key_lt order (TTuple (map component_type parts)))
    (VTuple (map component_value parts))
    (concat (in_argument_order order (map component_calls parts))).
Proof.
  intros each rest. cbn [deserialize]. rewrite map_map.
  destruct order; cbn [make_tuple in_argument_order].
  - now rewrite (in_sequence_components key_lt LeftToRight parts each).
  - rewrite <- !map_rev.
    rewrite (in_sequence_components key_lt RightToLeft (rev parts)).
    + cbn [bind]. now rewrite map_rev, rev_involutive.
    + now apply Forall_rev.
Qed.

Lemma tuple_reads_in_argument_order_witness :
  deserialize u8_lt RightToLeft (TTuple [TU8; TOption TU16])
    ([CU8 1; CU16 2; CU8 9] ++ [CBool true])
  = Ok (VTuple [VU8 9; VOption (Some (VU16 2))], [CBool true]).
Proof.
  apply (tuple_reads_in_argument_order u8_lt RightToLeft
           [ {| component_type := TU8; component_value := VU8 9;
                component_calls := [CU8 9] |};
             {| component_type := TOption TU16;
                component_value := VOption (Some (VU16 2));
                component_calls := [CU8 1; CU16 2] |} ]).
  repeat constructor; intros rest; reflexivity.
Defined.

(** ** Fixed-size arrays *)

Lemma array_loop_decoded {R : Type} (body : R -> outcome (value * R))
  (slots : nat) :
  forall (de : R) (items : list value) (de2 : R),
    array_loop body slots de = Ok (items, de2) ->
    List.length items = slots /\ decodes_items body de items de2.
Proof.
  induction slots as [|slots IH]; intros de items de2 run; simpl in run.
  - injection run as <- <-. split; [reflexivity | constructor].
  - destruct (body de) as [[item de1]|e] eqn:here; [| discriminate].
    cbn [bind] in run.
    destruct (array_loop body slots de1) as [[rest de3]|e] eqn:loop;
      [| discriminate].
    cbn [bind] in run. injection run as <- <-.
    destruct (IH _ _ _ loop) as [count chain]. split.
    + simpl. now rewrite count.
    + econstructor; eassumption.
Qed.

(** A [std::array<T, N>] is written as its elements, first to last, with no
    length call; it is read without asking for a length, as exactly [N]
    elements decoded one after the other: [N] elements that decode in a row
    are the result, and every result was decoded that way and has [N]
    elements. *)
Theorem fixed_array_exactness :
  (forall (items : list value) (each : list (list call)),
     Forall2 emits items each -> emits (VArray items) (concat each))
  /\ (forall (R : Type) (deserializer : Deserializer R)
        (key_lt : value -> value -> bool) (order : argument_order)
        (T : shape) (n : nat) (de : R),
        (forall (items : list value) (de2 : R),
           List.length items = n ->
           decodes_items (deserialize key_lt order T) de items de2 ->
           deserialize key_lt order (TArray T n) de = Ok (VArray items, de2))
        /\ (forall (v : value) (de2 : R),
              deserialize key_lt order (TArray T n) de = Ok (v, de2) ->
              exists items,
                v = VArray items
                /\ List.length items = n
                /\ decodes_items (deserialize key_lt order T) de items de2)).
Proof.
  split.
  - intros items each pairs W serializer w. cbn [serialize].
    now apply for_each_emits_each.
  - intros R deserializer key_lt order T n de. cbn [deserialize]. split.
    + intros items de2 <- chain.
      now rewrite (array_loop_decodes _ _ _ _ chain).
    + intros v de2 run.
      destruct (array_loop (deserialize key_lt order T) n de)
        as [[items de3]|e] eqn:loop; [| discriminate].
      cbn [bind] in run. injection run as <- <-.
      apply array_loop_decoded in loop as [count chain].
      exists items. repeat split; assumption.
Qed.

Lemma fixed_array_exactness_witness :
  decodes_items (deserialize u8_lt LeftToRight TU16)
    [CU16 7; CU16 8; CU16 9; CLen 5] [VU16 7; VU16 8; VU16 9] [CLen 5]
  /\ deserialize u8_lt LeftToRight (TArray TU16 3%nat)
       [CU16 7; CU16 8; CU16 9; CLen 5]
     = Ok (VArray [VU16 7; VU16 8; VU16 9], [CLen 5]).
Proof.
  assert (chain : decodes_items (deserialize u8_lt LeftToRight TU16)
                    [CU16 7; CU16 8; CU16 9; CLen 5]
                    [VU16 7; VU16 8; VU16 9] [CLen 5]).
  { eapply decodes_next_item; [reflexivity |].
    eapply decodes_next_item; [reflexivity |].
    eapply decodes_next_item; [reflexivity |].
    apply decodes_no_item. }
  split; [exact chain |].
  apply (proj1 (proj2 fixed_array_exactness _ _ u8_lt LeftToRight TU16 3%nat _)
           [VU16 7; VU16 8; VU16 9] [CLen 5]).
  - reflexivity.
  - exact chain.
Defined.

(** ** A failing element fails the whole *)

Lemma vector_loop_fails {R : Type} (body : R -> outcome (value * R))
  (de de2 : R) (items : list value) (e : error) :
  decodes_items body de items de2 ->
  body de2 = Err e ->
  forall (more : nat) (result : list value),
    vector_loop body (List.length items + S more) result de = Err e.
Proof.
  induction 1 as [de|de de1 de2 item items here _ IH];
    intros failing more result; simpl.
  - now rewrite failing.
  - rewrite here. cbn [bind]. now apply IH.
Qed.

(** A vector is all or nothing: when fewer elements than the length
    announced decode and the decoder of the next one fails, the vector rule
    fails with that very error; the elements decoded so far are dropped. *)
Theorem vector_element_failure {R : Type} {deserializer : Deserializer R}
  (key_lt : value -> value -> bool) (order : argument_order) (T : shape)
  (de de1 de2 : R) (len : N) (items : list value) (e : error) :
  deserialize_len de = Ok (len, de1) ->
  decodes_items (deserialize key_lt order T) de1 items de2 ->
  (List.length items < N.to_nat len)%nat ->
  deserialize key_lt order T de2 = Err e ->
  deserialize key_lt order (TSeq T) de = Err e.
Proof.
  intros read chain short failing. cbn [deserialize].
  rewrite read. cbn [bind].
  replace (N.to_nat len)
    with (List.length items + S (N.to_nat len - S (List.length items)))%nat
    by lia.
  now rewrite (vector_loop_fails _ _ _ _ _ chain failing).
Qed.

Lemma vector_element_failure_witness :
  deserialize u8_lt LeftToRight (TSeq (TOption TU8))
    [CLen 3; CU8 0; CU8 1; CU8 5; CU8 2; CU8 6]
  = Err (Thrown "invalid option tag").
Proof.
  assert (read : deserialize_len
                   [CLen 3; CU8 0; CU8 1; CU8 5; CU8 2; CU8 6]
                 = Ok (3, [CU8 0; CU8 1; CU8 5; CU8 2; CU8 6]))
    by reflexivity.
  apply (vector_element_failure u8_lt LeftToRight (TOption TU8) _ _
           [CU8 2; CU8 6] 3 [VOption None; VOption (Some (VU8 5))] _ read).
  - eapply decodes_next_item; [reflexivity |].
    eapply decodes_next_item; [reflexivity |].
    apply decodes_no_item.
  - simpl. lia.
  - reflexivity.
Defined.

(** ** What a decoded map holds *)

Section DecodedMap.
Context {R : Type} (key_lt : value -> value -> bool).

Lemma map_loop_decoded (key_body value_body : R -> outcome (value * R))
  (len : nat) :
  forall (result : list (value * value)) (de : R)
    (final : list (value * value)) (de2 : R),
    map_loop key_lt key_body value_body len result de = Ok (final, de2) ->
    exists entries,
      List.length entries = len
      /\ decodes_entries key_body value_body de entries de2
      /\ final = insert_all key_lt entries result.
Proof.
  induction len as [|len IH]; intros result de final de2 run; simpl in run.
  - injection run as <- <-. exists []. repeat split. constructor.
  - destruct (key_body de) as [[k de1]|e] eqn:kread; [| discriminate].
    cbn [bind] in run.
    destruct (value_body de1) as [[v de3]|e] eqn:vread; [| discriminate].
    cbn [bind] in run.
    apply IH in run as [entries [<- [chain ->]]].
    exists ((k, v) :: entries). repeat split.
    econstructor; eassumption.
Qed.

Lemma map_insert_length (k v : value) (m : list (value * value)) :
  (List.length (map_insert key_lt k v m) <= S (List.length m))%nat.
Proof.
  induction m as [|entry m IH]; simpl.
  - lia.
  - destruct (key_lt k (fst entry)); simpl; [lia |].
    destruct (key_lt (fst entry) k); simpl; lia.
Qed.

Lemma insert_all_length (entries m : list (value * value)) :
  (List.length (insert_all key_lt entries m)
   <= List.length entries + List.length m)%nat.
Proof.
  revert m. induction entries as [|entry entries IH]; intros m.
  - simpl. lia.
  - unfold insert_all. cbn [fold_left].
    fold (insert_all key_lt entries
            (map_insert key_lt (fst entry) (snd entry) m)).
    specialize (IH (map_insert key_lt (fst entry) (snd entry) m)).
    pose proof (map_insert_length (fst entry) (snd entry) m).
    simpl. lia.
Qed.

Hypothesis key_lt_irreflexive : forall a, key_lt a a = false.

Lemma map_insert_holds_key (k v : value) (m : list (value * value)) :
  exists e, In e (map_insert key_lt k v m) /\ key_equiv key_lt k (fst e) = true.
Proof.
  assert (self : key_equiv key_lt k k = true).
  { unfold key_equiv. now rewrite key_lt_irreflexive. }
  induction m as [|entry m [e [found same]]]; simpl.
  - exists (k, v). split; [now left | exact self].
  - destruct (key_lt k (fst entry)) eqn:before.
    + exists (k, v). split; [now left | exact self].
    + destruct (key_lt (fst entry) k) eqn:after.
      * exists e. split; [now right | exact same].
      * exists entry. split; [now left |].
        unfold key_equiv. now rewrite before, after.
Qed.

Lemma insert_all_holds_keys (entries m : list (value * value))
  (e : value * value) :
  In e entries ->
  exists e', In e' (insert_all key_lt entries m)
             /\ key_equiv key_lt (fst e) (fst e') = true.
Proof.
  revert m. induction entries as [|entry entries IH]; intros m found.
  - destruct found.
  - destruct found as [->|found].
    + destruct (map_insert_holds_key (fst e) (snd e) m) as [e' [held same]].
      exists e'. split; [| exact same].
      unfold insert_all. cbn [fold_left]. now apply insert_all_keeps.
    + apply (IH (map_insert key_lt (fst entry) (snd entry) m) found).
Qed.

End DecodedMap.

(** Whatever the map rule returns is a [std::map] in good order: it was
    built from exactly the announced number of entries read key then value,
    its keys are strictly ascending, it is no larger than the number of
    entries read, each of its entries is an entry read, and every key read
    is in it. *)
Theorem decoded_map_contents {R : Type} {deserializer : Deserializer R}
  (key_lt : value -> value -> bool) (order : argument_order) (K V : shape)
  (de de2 : R) (v : value) :
  (forall a, key_lt a a = false) ->
  (forall a b c,
     key_lt a b = true -> key_lt b c = true -> key_lt a c = true) ->
  deserialize key_lt order (TMap K V) de = Ok (v, de2) ->
  exists (len : N) (de1 : R) (entries m : list (value * value)),
    deserialize_len de = Ok (len, de1)
    /\ List.length entries = N.to_nat len
    /\ decodes_entries (deserialize key_lt order K)
         (deserialize key_lt order V) de1 entries de2
    /\ v = VMap m
    /\ ascending key_lt m = true
    /\ (List.length m <= List.length entries)%nat
    /\ (forall e, In e m -> In e entries)
    /\ (forall e, In e entries ->
        exists e', In e' m /\ key_equiv key_lt (fst e) (fst e') = true).
Proof.
  intros irreflexive transitive run. cbn [deserialize] in run.
  destruct (deserialize_len de) as [[len de1]|e] eqn:read; [| discriminate].
  cbn [bind] in run.
  destruct (map_loop key_lt (deserialize key_lt order K)
              (deserialize key_lt order V) (N.to_nat len) [] de1)
    as [[m de3]|e] eqn:loop; [| discriminate].
  cbn [bind] in run. injection run as <- <-.
  apply map_loop_decoded in loop as [entries [count [chain ->]]].
  exists len, de1, entries, (insert_all key_lt entries []).
  repeat split; try assumption.
  - now apply insert_all_ascending.
  - pose proof (insert_all_length key_lt entries []). simpl in *. lia.
  - intros e found.
    now apply insert_all_from in found as [found|[]].
  - intros e found. now apply insert_all_holds_keys.
Qed.

Lemma decoded_map_contents_witness :
  exists (len : N) (de1 : list call) (entries m : list (value * value)),
    deserialize_len [CLen 3; CU8 4; CBool true; CU8 2; CBool true;
                     CU8 4; CBool false]
    = Ok (len, de1)
    /\ List.length entries = N.to_nat len
    /\ decodes_entries (deserialize u8_lt LeftToRight TU8)
         (deserialize u8_lt LeftToRight TBool) de1 entries []
    /\ VMap [(VU8 2, VBool true); (VU8 4, VBool true)] = VMap m
    /\ ascending u8_lt m = true
    /\ (List.length m <= List.length entries)%nat
    /\ (forall e, In e m -> In e entries)
    /\ (forall e, In e entries ->
        exists e', In e' m /\ key_equiv u8_lt (fst e) (fst e') = true).
Proof.
  apply (decoded_map_contents u8_lt LeftToRight TU8 TBool
           [CLen 3; CU8 4; CBool true; CU8 2; CBool true; CU8 4; CBool false]
           [] _ u8_lt_irreflexive u8_lt_transitive).
  reflexivity.
Defined.

(** ** Where failures come from *)

Lemma bind_fails {A B : Type} (c : outcome A) (k : A -> outcome B)
  (e : error) :
  bind c k = Err e -> c = Err e \/ exists a, c = Ok a /\ k a = Err e.
Proof.
  destruct c as [a|e']; simpl; intros run.
  - right. now exists a.
  - left. congruence.
Qed.

Lemma for_each_fails {A W : Type} (body : A -> W -> outcome W)
  (items : list A) (e : error) :
  forall w, for_each body items w = Err e ->
  exists item w', In item items /\ body item w' = Err e.
Proof.
  induction items as [|item items IH]; intros w run; simpl in run.
  - discriminate.
  - apply bind_fails in run as [here|[w1 [_ later]]].
    + exists item, w. split; [now left | exact here].
    + destruct (IH w1 later) as [x [w' [found failing]]].
      exists x, w'. split; [now right | exact failing].
Qed.

Section SerializeFailures.
Context {W : Type} {serializer : Serializer W}.

Lemma raised_by_call (c : call) (w : W) (e : error) :
  replay_call c w = Err e -> serializer_raises e.
Proof. intros failing. now exists c, w. Qed.

(** Serializing fails in two ways only: a member function of the
    Serializer raises, or a null [unique_ptr] is dereferenced.  The rules
    raise nothing of their own. *)
Theorem serialize_failure_origin (v : value) (w : W) (e : error) :
  serialize v w = Err e -> e = NullDereference \/ serializer_raises e.
Proof.
  revert w.
  induction v using value_induction; intros w run.
  - right. apply (raised_by_call (hd CUnit (leaf_calls v)) w e).
    destruct v; try discriminate; exact run.
  - left. simpl in run. congruence.
  - apply (IHv w run).
  - right. apply (raised_by_call (CU8 0) w _ run).
  - cbn [serialize] in run. apply bind_fails in run as [tag|[w1 [_ inner]]].
    + right. apply (raised_by_call (CU8 1) w _ tag).
    + apply (IHv w1 inner).
  - cbn [serialize] in run. apply bind_fails in run as [len|[w1 [_ loop]]].
    + right. apply (raised_by_call (CLen _) w _ len).
    + apply for_each_fails in loop as [item [w' [found failing]]].
      apply (proj1 (Forall_forall _ _) H item found w' failing).
  - cbn [serialize] in run.
    apply for_each_fails in run as [item [w' [found failing]]].
    apply (proj1 (Forall_forall _ _) H item found w' failing).
  - cbn [serialize] in run. apply bind_fails in run as [len|[w1 [_ loop]]].
    + right. apply (raised_by_call (CLen _) w _ len).
    + apply for_each_fails in loop as [item [w' [found failing]]].
      destruct (proj1 (Forall_forall _ _) H item found) as [kIH vIH].
      apply bind_fails in failing as [key|[w2 [_ val]]].
      * apply (kIH w' key).
      * apply (vIH w2 val).
  - cbn [serialize] in run.
    apply for_each_fails in run as [item [w' [found failing]]].
    apply (proj1 (Forall_forall _ _) H item found w' failing).
  - cbn [serialize] in run. apply bind_fails in run as [tag|[w1 [_ inner]]].
    + right. apply (raised_by_call (CVariantIndex _) w _ tag).
    + apply (IHv w1 inner).
Qed.

End SerializeFailures.

Lemma serialize_failure_origin_witness :
  serialize (VSeq [VBool true; VBox None]) [CUnit] = Err NullDereference
  /\ (NullDereference = NullDereference
      \/ serializer_raises (W := list call) NullDereference).
Proof.
  assert (run : serialize (VSeq [VBool true; VBox None]) [CUnit]
                = Err NullDereference) by reflexivity.
  split; [exact run |].
  apply (serialize_failure_origin _ _ _ run).
Defined.

Section DeserializeFailures.
Context {R : Type} {deserializer : Deserializer R}.
Variable key_lt : value -> value -> bool.
Variable order : argument_order.

Lemma vector_loop_failed (body : R -> outcome (value * R)) (e : error)
  (len : nat) :
  forall result de,
    vector_loop body len result de = Err e -> exists de', body de' = Err e.
Proof.
  induction len as [|len IH]; intros result de run; simpl in run.
  - discriminate.
  - apply bind_fails in run as [here|[[item de1] [_ later]]].
    + now exists de.
    + apply (IH _ _ later).
Qed.

Lemma array_loop_failed (body : R -> outcome (value * R)) (e : error)
  (slots : nat) :
  forall de, array_loop body slots de = Err e -> exists de', body de' = Err e.
Proof.
  induction slots as [|slots IH]; intros de run; simpl in run.
  - discriminate.
  - apply bind_fails in run as [here|[[item de1] [_ later]]].
    + now exists de.
    + simpl in later.
      apply bind_fails in later as [loop|[[rest de2] [_ impossible]]].
      * apply (IH _ loop).
      * discriminate.
Qed.

Lemma map_loop_failed (key_body value_body : R -> outcome (value * R))
  (e : error) (len : nat) :
  forall result de,
    map_loop key_lt key_body value_body len result de = Err e ->
    exists de', key_body de' = Err e \/ value_body de' = Err e.
Proof.
  induction len as [|len IH]; intros result de run; simpl in run.
  - discriminate.
  - apply bind_fails in run as [here|[[k de1] [_ later]]].
    + exists de. now left.
    + simpl in later.
      apply bind_fails in later as [here|[[v de2] [_ loop]]].
      * exists de1. now right.
      * apply (IH _ _ loop).
Qed.

Lemma in_sequence_failed (bodies : list (R -> outcome (value * R)))
  (e : error) :
  forall de, in_sequence bodies de = Err e ->
  exists body de', In body bodies /\ body de' = Err e.
Proof.
  induction bodies as [|body bodies IH]; intros de run; simpl in run.
  - discriminate.
  - apply bind_fails in run as [here|[[item de1] [_ later]]].
    + exists body, de. split; [now left | exact here].
    + simpl in later.
      apply bind_fails in later as [loop|[[rest de2] [_ impossible]]].
      * destruct (IH _ loop) as [b [de' [found failing]]].
        exists b, de'. split; [now right | exact failing].
      * discriminate.
Qed.

Lemma array_at_found {A B : Type} (f : A -> B) (l : list A) (index : N)
  (b : B) :
  array_at (map f l) index = Ok b ->
  exists a, nth_error l (N.to_nat index) = Some a /\ b = f a.
Proof.
  unfold array_at. rewrite length_map, nth_error_map.
  destruct (index <? N.of_nat (List.length l)); [| discriminate].
  destruct (nth_error l (N.to_nat index)) as [a|]; [| discriminate].
  simpl. intros found. injection found as <-. now exists a.
Qed.

Lemma array_at_failed {A : Type} (l : list A) (index : N) (e : error) :
  array_at l index = Err e -> e = OutOfRange.
Proof.
  unfold array_at.
  destruct (index <? N.of_nat (List.length l)); [| congruence].
  destruct (nth_error l (N.to_nat index)); congruence.
Qed.

Ltac raised_here de :=
  right; right; exists de; simpl;
  match goal with
  | failing : _ = Err _ |- _ => rewrite failing
  end;
  simpl; tauto.

(** Deserializing fails in three ways only: a member function of the
    Deserializer raises, an option tag is neither 0 nor 1, or a variant
    index is outside the case table. *)
Theorem deserialize_failure_origin (T : shape) :
  forall (de : R) (e : error),
    deserialize key_lt order T de = Err e ->
    e = Thrown "invalid option tag"
    \/ e = OutOfRange
    \/ deserializer_raises e.
Proof.
  induction T using shape_induction; intros de e run.
  - destruct T; try discriminate; cbn [deserialize] in run;
      apply bind_fails in run as [failing|[[x de1] [_ impossible]]];
      try discriminate; raised_here de.
  - cbn [deserialize] in run.
    apply bind_fails in run as [inner|[[x de1] [_ impossible]]];
      [eauto | discriminate].
  - cbn [deserialize] in run.
    apply bind_fails in run as [failing|[[tag de1] [_ later]]];
      [raised_here de |].
    simpl in later. destruct (tag =? 0); [discriminate |].
    destruct (negb (tag =? 1)); [left; congruence |].
    apply bind_fails in later as [inner|[[x de2] [_ impossible]]];
      [eauto | discriminate].
  - cbn [deserialize] in run.
    apply bind_fails in run as [failing|[[len de1] [_ later]]];
      [raised_here de |].
    simpl in later.
    apply bind_fails in later as [loop|[[items de2] [_ impossible]]];
      [| discriminate].
    apply vector_loop_failed in loop as [de' inner]. eauto.
  - cbn [deserialize] in run.
    apply bind_fails in run as [loop|[[items de1] [_ impossible]]];
      [| discriminate].
    apply array_loop_failed in loop as [de' inner]. eauto.
  - cbn [deserialize] in run.
    apply bind_fails in run as [failing|[[len de1] [_ later]]];
      [raised_here de |].
    simpl in later.
    apply bind_fails in later as [loop|[[entries de2] [_ impossible]]];
      [| discriminate].
    apply map_loop_failed in loop as [de' [inner|inner]]; eauto.
  - cbn [deserialize] in run.
    apply bind_fails in run as [tuple|[[items de1] [_ impossible]]];
      [| discriminate].
    assert (some : exists body de',
               In body (map (deserialize key_lt order) Ts)
               /\ body de' = Err e).
    { unfold make_tuple in tuple. destruct order.
      - now apply in_sequence_failed in tuple.
      - apply bind_fails in tuple as [loop|[[items de1] [_ impossible]]];
          [| discriminate].
        apply in_sequence_failed in loop as [body [de' [found failing]]].
        exists body, de'. split; [| exact failing].
        now apply in_rev. }
    destruct some as [body [de' [found failing]]].
    apply in_map_iff in found as [T1 [<- found]].
    apply (proj1 (Forall_forall _ _) H T1 found de' e failing).
  - cbn [deserialize] in run. cbv zeta in run.
    apply bind_fails in run as [failing|[[index de1] [_ later]]];
      [raised_here de |].
    simpl in later.
    apply bind_fails in later as [table|[case [table inner]]].
    + right. left. now apply array_at_failed in table.
    + apply array_at_found in table as [T1 [at_index ->]].
      unfold make_case in inner.
      apply bind_fails in inner as [payload|[[x de2] [_ impossible]]];
        [| discriminate].
      apply nth_error_In in at_index.
      apply (proj1 (Forall_forall _ _) H T1 at_index de1 e payload).
Qed.

End DeserializeFailures.

Lemma deserialize_failure_origin_witness :
  deserialize u8_lt RightToLeft (TTuple [TBool; TSum [TUnit; TU8]])
    [CVariantIndex 2; CBool true]
  = Err OutOfRange
  /\ (OutOfRange = Thrown "invalid option tag"
      \/ OutOfRange = OutOfRange
      \/ deserializer_raises (R := list call) OutOfRange).
Proof.
  assert (run : deserialize u8_lt RightToLeft
                  (TTuple [TBool; TSum [TUnit; TU8]])
                  [CVariantIndex 2; CBool true]
                = Err OutOfRange) by reflexivity.
  split; [exact run |].
  apply (deserialize_failure_origin u8_lt RightToLeft _ _ _ run).
Defined.

(** ** Decoded values are values of the type *)

Lemma wrap_unsigned_range (bits n : N) :
  unsigned_range bits (wrap_unsigned bits n) = true.
Proof.
  unfold unsigned_range, wrap_unsigned. apply N.ltb_lt.
  apply N.mod_upper_bound. apply N.pow_nonzero. discriminate.
Qed.

Lemma wrap_signed_range (bits n : Z) :
  (0 < bits)%Z -> signed_range bits (wrap_signed bits n) = true.
Proof.
  intros positive. unfold signed_range, wrap_signed.
  assert (double : (2 ^ bits = 2 * 2 ^ (bits - 1))%Z).
  { rewrite <- Z.pow_succ_r by lia. f_equal. lia. }
  assert (pos : (0 < 2 ^ (bits - 1))%Z) by (apply Z.pow_pos_nonneg; lia).
  pose proof (Z.mod_pos_bound (n + 2 ^ (bits - 1)) (2 ^ bits)) as bound.
  apply andb_true_iff. split; [apply Z.leb_le | apply Z.ltb_lt]; lia.
Qed.

Ltac narrowed_read read :=
  cbn in read; unfold next_narrowed, next in read;
  match type of read with
  | context [recorded ?de] => destruct (recorded de) as [|[] ?]
  end;
  try discriminate; injection read as <- _.

#[export] Instance narrowing_ranged : Ranged narrowing.
Proof.
  split; intros de n de1 read; narrowed_read read;
    try apply wrap_unsigned_range;
    try (apply wrap_signed_range; lia).
  - apply andb_true_iff. split; apply (wrap_unsigned_range 64).
  - apply andb_true_iff. split.
    + apply (wrap_signed_range 64). lia.
    + apply (wrap_unsigned_range 64).
Qed.

Lemma nth_error_alternative_index (Ts : list shape) (T : shape) :
  In T Ts -> nth_error Ts (alternative_index Ts T) = Some T.
Proof.
  induction Ts as [|T1 Ts IH]; intros found; simpl.
  - destruct found.
  - destruct (shape_eqb T T1) eqn:same.
    + apply shape_eqb_eq in same. now subst.
    + destruct found as [->|found].
      * now rewrite shape_eqb_refl in same.
      * simpl. now apply IH.
Qed.

Lemma Forall2_reversed {A B : Type} (P : A -> B -> Prop) (l : list A)
  (l' : list B) :
  Forall2 P l l' -> Forall2 P (rev l) (rev l').
Proof.
  induction 1 as [|x y l l' here _ IH]; simpl.
  - constructor.
  - apply Forall2_app; [exact IH | now repeat constructor].
Qed.

Section DecodedShape.
Context {R : Type} {deserializer : Deserializer R} {ranged : Ranged R}.
Variable key_lt : value -> value -> bool.
Hypothesis key_lt_transitive :
  forall a b c, key_lt a b = true -> key_lt b c = true -> key_lt a c = true.

Lemma decodes_items_sound (T : shape) (body : R -> outcome (value * R))
  (de de2 : R) (items : list value) :
  sound_decoder key_lt T body ->
  decodes_items body de items de2 ->
  forallb (fun x => has_shape key_lt x T) items = true.
Proof.
  intros sound. induction 1 as [de|de de1 de2 item items here _ IH]; simpl.
  - reflexivity.
  - now rewrite (sound _ _ _ here), IH.
Qed.

Lemma decodes_entries_sound (K V : shape)
  (key_body value_body : R -> outcome (value * R)) (de de2 : R)
  (entries : list (value * value)) :
  sound_decoder key_lt K key_body -> sound_decoder key_lt V value_body ->
  decodes_entries key_body value_body de entries de2 ->
  forallb (fun e => has_shape key_lt (fst e) K && has_shape key_lt (snd e) V)
    entries = true.
Proof.
  intros ksound vsound.
  induction 1 as [de|de de1 de2 de3 k v entries kread vread _ IH]; simpl.
  - reflexivity.
  - now rewrite (ksound _ _ _ kread), (vsound _ _ _ vread), IH.
Qed.

Lemma in_sequence_sound (order : argument_order) (Ts : list shape) :
  Forall (fun T => sound_decoder key_lt T (deserialize key_lt order T)) Ts ->
  forall de items de1,
    in_sequence (map (deserialize key_lt order) Ts) de = Ok (items, de1) ->
    Forall2 (fun x T => has_shape key_lt x T = true) items Ts.
Proof.
  induction 1 as [|T Ts sound _ IH]; intros de items de1 run; simpl in run.
  - injection run as <- _. constructor.
  - destruct (deserialize key_lt order T de) as [[item de2]|e] eqn:here;
      [| discriminate].
    cbn [bind] in run.
    destruct (in_sequence (map (deserialize key_lt order) Ts) de2)
      as [[rest de3]|e] eqn:loop; [| discriminate].
    cbn [bind] in run. injection run as <- _.
    constructor; [eapply sound; eassumption | eapply IH; eassumption].
Qed.

Lemma tuple_has_shape (items : list value) (Ts : list shape) :
  Forall2 (fun x T => has_shape key_lt x T = true) items Ts ->
  has_shape key_lt (VTuple items) (TTuple Ts) = true.
Proof.
  induction 1 as [|x T items Ts here _ IH]; simpl.
  - reflexivity.
  - simpl in IH. now rewrite here, IH.
Qed.

Lemma deserialize_sound (order : argument_order) (T : shape) :
  sound_decoder key_lt T (deserialize key_lt order T).
Proof.
  induction T using shape_induction; intros de v de2 run.
  - destruct T; try discriminate; cbn [deserialize] in run;
      match type of run with
      | bind ?c _ = _ => destruct c as [[x de1]|e] eqn:read
      end;
      try discriminate; cbn in run; injection run as <- _; simpl;
      first [ reflexivity
            | eapply char_in_range; eassumption
            | eapply f32_in_range; eassumption
            | eapply f64_in_range; eassumption
            | eapply u8_in_range; eassumption
            | eapply u16_in_range; eassumption
            | eapply u32_in_range; eassumption
            | eapply u64_in_range; eassumption
            | eapply u128_in_range; eassumption
            | eapply i8_in_range; eassumption
            | eapply i16_in_range; eassumption
            | eapply i32_in_range; eassumption
            | eapply i64_in_range; eassumption
            | eapply i128_in_range; eassumption ].
  - cbn [deserialize] in run.
    destruct (deserialize key_lt order T de) as [[x de1]|e] eqn:inner;
      [| discriminate].
    cbn in run. injection run as <- _. simpl. eapply IHT; eassumption.
  - cbn [deserialize] in run.
    destruct (deserialize_u8 de) as [[tag de1]|e]; [| discriminate].
    cbn [bind] in run. cbv beta iota zeta in run.
    destruct (tag =? 0); [injection run as <- _; reflexivity |].
    destruct (negb (tag =? 1)); [discriminate |].
    destruct (deserialize key_lt order T de1) as [[x de3]|e] eqn:inner;
      [| discriminate].
    cbn in run. injection run as <- _. simpl. eapply IHT; eassumption.
  - cbn [deserialize] in run.
    destruct (deserialize_len de) as [[len de1]|e]; [| discriminate].
    cbn [bind] in run. cbv beta iota zeta in run.
    destruct (vector_loop (deserialize key_lt order T) (N.to_nat len) [] de1)
      as [[items de3]|e] eqn:loop; [| discriminate].
    cbn in run. injection run as <- _.
    apply vector_loop_decoded in loop as [found [-> [_ chain]]].
    simpl. eapply decodes_items_sound; eassumption.
  - cbn [deserialize] in run.
    destruct (array_loop (deserialize key_lt order T) n de)
      as [[items de3]|e] eqn:loop; [| discriminate].
    cbn in run. injection run as <- _.
    apply array_loop_decoded in loop as [count chain].
    simpl. rewrite count, Nat.eqb_refl. simpl.
    eapply decodes_items_sound; eassumption.
  - cbn [deserialize] in run.
    destruct (deserialize_len de) as [[len de1]|e]; [| discriminate].
    cbn [bind] in run. cbv beta iota zeta in run.
    destruct (map_loop key_lt (deserialize key_lt order T1)
                (deserialize key_lt order T2) (N.to_nat len) [] de1)
      as [[m de3]|e] eqn:loop; [| discriminate].
    cbn in run. injection run as <- _.
    apply map_loop_decoded in loop as [entries [_ [chain ->]]].
    simpl. apply andb_true_iff. split.
    + now apply insert_all_ascending.
    + apply forallb_forall. intros e found.
      apply insert_all_from in found as [found|[]].
      pose proof (decodes_entries_sound T1 T2 _ _ _ _ _ IHT1 IHT2 chain)
        as typed.
      now apply (proj1 (forallb_forall _ _) typed).
  - cbn [deserialize] in run.
    destruct (make_tuple order (map (deserialize key_lt order) Ts) de)
      as [[items de3]|e] eqn:tuple; [| discriminate].
    cbn in run. injection run as <- _.
    apply tuple_has_shape. unfold make_tuple in tuple. destruct order.
    + eapply in_sequence_sound; eassumption.
    + cbv beta iota in tuple.
      match type of tuple with
      | bind ?c _ = _ => destruct c as [[found de4]|e] eqn:loop
      end; [| discriminate].
      cbn in tuple. injection tuple as <- _.
      rewrite <- map_rev in loop.
      apply in_sequence_sound in loop; [| now apply Forall_rev].
      apply Forall2_reversed in loop. now rewrite rev_involutive in loop.
  - cbn [deserialize] in run. cbv zeta in run.
    destruct (deserialize_variant_index de) as [[index de1]|e];
      [| discriminate].
    cbn [bind] in run. cbv beta iota zeta in run.
    destruct (array_at
                (map (fun T1 => make_case Ts T1 (deserialize key_lt order T1))
                   Ts) index) as [case|e] eqn:table; [| discriminate].
    cbn [bind] in run.
    apply array_at_found in table as [T1 [at_index ->]].
    unfold make_case in run.
    destruct (deserialize key_lt order T1 de1) as [[payload de3]|e] eqn:inner;
      [| discriminate].
    cbn in run. injection run as <- _.
    apply nth_error_In in at_index. simpl.
    rewrite (nth_error_alternative_index Ts T1 at_index).
    eapply (proj1 (Forall_forall _ _) H T1 at_index); eassumption.
Qed.

End DecodedShape.

(** On a Deserializer that keeps to its return types, and with keys
    compared by a transitive order, whatever a rule returns is a value of
    the type asked for, under either argument order: integers within their
    width, arrays of exactly [N] elements, tuples of the declared arity and
    component types, variants with an index below the number of
    alternatives holding a value of that alternative's type, maps in
    strictly ascending key order, and no null owning pointer. *)
Theorem decoded_value_has_shape {R : Type} {deserializer : Deserializer R}
  {ranged : Ranged R} (key_lt : value -> value -> bool)
  (order : argument_order) (T : shape) (de de1 : R) (v : value) :
  (forall a b c,
     key_lt a b = true -> key_lt b c = true -> key_lt a c = true) ->
  deserialize key_lt order T de = Ok (v, de1) ->
  has_shape key_lt v T = true.
Proof.
  intros transitive run.
  exact (deserialize_sound key_lt transitive order T de v de1 run).
Qed.

Lemma decoded_value_has_shape_witness :
  deserialize u8_lt RightToLeft
    (TMap TU8 (TTuple [TOption TBool; TArray TI8 2%nat]))
    {| recorded := [CLen 2; CU8 300; CI8 200; CI8 1; CU8 0;
                    CU8 7; CI8 (-129); CI8 0; CU8 1; CBool true; CUnit] |}
  = Ok (VMap
          [(VU8 7,
            VTuple [VOption (Some (VBool true)); VArray [VI8 127; VI8 0]]);
           (VU8 44, VTuple [VOption None; VArray [VI8 (-56); VI8 1]])],
        {| recorded := [CUnit] |})
  /\ has_shape u8_lt
       (VMap
          [(VU8 7,
            VTuple [VOption (Some (VBool true)); VArray [VI8 127; VI8 0]]);
           (VU8 44, VTuple [VOption None; VArray [VI8 (-56); VI8 1]])])
       (TMap TU8 (TTuple [TOption TBool; TArray TI8 2%nat])) = true.
Proof.
  assert (run : deserialize u8_lt RightToLeft
                  (TMap TU8 (TTuple [TOption TBool; TArray TI8 2%nat]))
                  {| recorded := [CLen 2; CU8 300; CI8 200; CI8 1; CU8 0;
                                  CU8 7; CI8 (-129); CI8 0; CU8 1; CBool true;
                                  CUnit] |}
                = Ok (VMap
                        [(VU8 7,
                          VTuple [VOption (Some (VBool true));
                                  VArray [VI8 127; VI8 0]]);
                         (VU8 44,
                          VTuple [VOption None; VArray [VI8 (-56); VI8 1]])],
                      {| recorded := [CUnit] |}))
    by (vm_compute; reflexivity).
  split; [exact run |].
  exact (decoded_value_has_shape u8_lt RightToLeft _ _ _ _
           u8_lt_transitive run).
Defined.

(** ** Equality of 128-bit integers, in full *)

(** [operator==] on either 128-bit struct answers whether the high halves
    are equal; the low halves of the two operands are never compared with
    each other. *)
Theorem eq128_compares_high_halves :
  (forall lhs rhs : uint128_t,
     uint128_eq lhs rhs = true <-> u_high lhs = u_high rhs)
  /\ (forall lhs rhs : int128_t,
        int128_eq lhs rhs = true <-> i_high lhs = i_high rhs).
Proof.
  split; intros lhs rhs.
  - rewrite uint128_eq_high_only. apply N.eqb_eq.
  - rewrite int128_eq_high_only. apply Z.eqb_eq.
Qed.

(** ** The first failing call ends serialization *)

(** A value whose owners are present makes its calls in order until one
    fails: when the Serializer accepts the calls before some call and
    raises on that call, serializing the value fails with what that call
    raised, and the calls after it are not made. *)
Theorem serialize_stops_at_first_failure (v : value) :
  owners_present v = true ->
  exists calls : list call,
    serialize v [] = Ok calls
    /\ forall (W : Type) (serializer : Serializer W) (w w1 : W)
         (before after : list call) (c : call) (e : error),
         calls = before ++ c :: after ->
         replay_calls before w = Ok w1 ->
         replay_call c w1 = Err e ->
         serialize v w = Err e.
Proof.
  intros present.
  destruct (emits_total v present) as [calls run].
  exists calls. split; [now apply (emits_recorded v calls []) |].
  intros W serializer w w1 before after c e -> accepted raised.
  rewrite run, replay_calls_app, accepted. cbn [bind].
  rewrite replay_calls_cons, raised. reflexivity.
Qed.

Lemma serialize_stops_at_first_failure_witness :
  owners_present (VSeq [VU8 1; VOption (Some (VU8 2))]) = true
  /\ serialize (VSeq [VU8 1; VOption (Some (VU8 2))])
       {| room := 3; written := [] |}
     = Err medium_full.
Proof.
  split; [reflexivity |].
  destruct (serialize_stops_at_first_failure
              (VSeq [VU8 1; VOption (Some (VU8 2))]) eq_refl)
    as [calls [log stops]].
  vm_compute in log. injection log as <-.
  apply (stops bounded _ {| room := 3; written := [] |}
           {| room := 0; written := [CLen 2; CU8 1; CU8 1] |}
           [CLen 2; CU8 1; CU8 1] [] (CU8 2) medium_full);
    reflexivity.
Defined.

(** ** The order in which distinct keys arrive *)

Section SameEntries.
Variable key_lt : value -> value -> bool.
Hypothesis key_lt_irreflexive : forall a, key_lt a a = false.
Hypothesis key_lt_transitive :
  forall a b c, key_lt a b = true -> key_lt b c = true -> key_lt a c = true.

Lemma ascending_head_not_later (e : value * value)
  (m : list (value * value)) :
  ascending key_lt (e :: m) = true -> ~ In e m.
Proof.
  simpl. intros sorted found.
  apply andb_true_iff in sorted as [above _].
  apply (proj1 (forallb_forall _ _) above) in found.
  now rewrite key_lt_irreflexive in found.
Qed.

(** Two ascending maps with the same entries are the same map. *)
Lemma ascending_same_entries (m : list (value * value)) :
  forall m',
    ascending key_lt m = true -> ascending key_lt m' = true ->
    (forall e, In e m <-> In e m') ->
    m = m'.
Proof.
  induction m as [|h m IH]; intros [|h' m'] sorted sorted' same.
  - reflexivity.
  - destruct (proj2 (same h') (or_introl eq_refl)).
  - destruct (proj1 (same h) (or_introl eq_refl)).
  - assert (heads : h = h').
    { destruct (proj1 (same h) (or_introl eq_refl)) as [<-|later];
        [reflexivity |].
      destruct (proj2 (same h') (or_introl eq_refl)) as [<-|later'];
        [reflexivity |].
      simpl in sorted, sorted'.
      apply andb_true_iff in sorted as [above _].
      apply andb_true_iff in sorted' as [above' _].
      apply (proj1 (forallb_forall _ _) above) in later'.
      apply (proj1 (forallb_forall _ _) above') in later.
      rewrite (key_lt_asymmetric key_lt key_lt_irreflexive
                 key_lt_transitive _ _ later) in later'.
      discriminate. }
    subst h'. f_equal.
    pose proof (ascending_head_not_later _ _ sorted) as fresh.
    pose proof (ascending_head_not_later _ _ sorted') as fresh'.
    simpl in sorted, sorted'.
    apply andb_true_iff in sorted as [_ sorted].
    apply andb_true_iff in sorted' as [_ sorted'].
    apply IH; try assumption.
    intros e. split; intros found.
    + destruct (proj1 (same e) (or_intror found)) as [<-|there];
        [contradiction | exact there].
    + destruct (proj2 (same e) (or_intror found)) as [<-|there];
        [contradiction | exact there].
Qed.

(** With one entry per key, inserting keeps exactly the entries given. *)
Lemma insert_all_one_per_key (entries : list (value * value)) :
  (forall e e', In e entries -> In e' entries ->
                key_equiv key_lt (fst e) (fst e') = true -> e = e') ->
  forall e, In e (insert_all key_lt entries []) <-> In e entries.
Proof.
  intros one e. split; intros found.
  - now apply insert_all_from in found as [found|[]].
  - destruct (insert_all_holds_keys key_lt key_lt_irreflexive entries [] e
                found) as [e' [held same]].
    assert (from : In e' entries).
    { now apply insert_all_from in held as [held|[]]. }
    now rewrite (one e e' found from same).
Qed.

End SameEntries.

(** A map read from entries with one entry per key does not depend on the
    order in which the entries arrive: two Deserializers that announce the
    same number of entries and yield the same entries in different orders
    deserialize to the same map. *)
Theorem decoded_map_ignores_arrival_order {R : Type}
  {deserializer : Deserializer R} (key_lt : value -> value -> bool)
  (order : argument_order) (K V : shape) (de de1 de2 de' de1' de2' : R)
  (len : N) (entries entries' : list (value * value)) :
  (forall a, key_lt a a = false) ->
  (forall a b c,
     key_lt a b = true -> key_lt b c = true -> key_lt a c = true) ->
  (forall e e', In e entries -> In e' entries ->
                key_equiv key_lt (fst e) (fst e') = true -> e = e') ->
  Permutation entries entries' ->
  N.to_nat len = List.length entries ->
  deserialize_len de = Ok (len, de1) ->
  decodes_entries (deserialize key_lt order K) (deserialize key_lt order V)
    de1 entries de2 ->
  deserialize_len de' = Ok (len, de1') ->
  decodes_entries (deserialize key_lt order K) (deserialize key_lt order V)
    de1' entries' de2' ->
  exists m : list (value * value),
    deserialize key_lt order (TMap K V) de = Ok (VMap m, de2)
    /\ deserialize key_lt order (TMap K V) de' = Ok (VMap m, de2')
    /\ forall e, In e m <-> In e entries.
Proof.
  intros irreflexive transitive one shuffled count read chain read' chain'.
  assert (one' : forall e e', In e entries' -> In e' entries' ->
                   key_equiv key_lt (fst e) (fst e') = true -> e = e').
  { intros e e' found found'. apply one.
    - eapply Permutation_in; [apply Permutation_sym |]; eassumption.
    - eapply Permutation_in; [apply Permutation_sym |]; eassumption. }
  assert (same : insert_all key_lt entries [] = insert_all key_lt entries' []).
  { apply (ascending_same_entries key_lt irreflexive transitive).
    - now apply insert_all_ascending.
    - now apply insert_all_ascending.
    - intros e.
      rewrite (insert_all_one_per_key key_lt irreflexive entries one).
      rewrite (insert_all_one_per_key key_lt irreflexive entries' one').
      split; apply Permutation_in;
        [exact shuffled | now apply Permutation_sym]. }
  exists (insert_all key_lt entries []). repeat split.
  - cbn [deserialize]. rewrite read. cbn [bind]. rewrite count.
    now rewrite (map_loop_decodes key_lt _ _ _ _ _ chain).
  - cbn [deserialize]. rewrite read'. cbn [bind].
    rewrite count, (Permutation_length shuffled).
    now rewrite (map_loop_decodes key_lt _ _ _ _ _ chain'), same.
  - now apply (insert_all_one_per_key key_lt irreflexive entries one).
  - now apply (insert_all_one_per_key key_lt irreflexive entries one).
Qed.

Lemma decoded_map_ignores_arrival_order_witness :
  exists m : list (value * value),
    deserialize u8_lt LeftToRight (TMap TU8 TBool)
      [CLen 2; CU8 1; CBool true; CU8 2; CBool false]
    = Ok (VMap m, [])
    /\ deserialize u8_lt LeftToRight (TMap TU8 TBool)
         [CLen 2; CU8 2; CBool false; CU8 1; CBool true]
       = Ok (VMap m, [])
    /\ forall e,
         In e m <-> In e [(VU8 1, VBool true); (VU8 2, VBool false)].
Proof.
  assert (read : deserialize_len
                   [CLen 2; CU8 1; CBool true; CU8 2; CBool false]
                 = Ok (2, [CU8 1; CBool true; CU8 2; CBool false]))
    by reflexivity.
  assert (read' : deserialize_len
                    [CLen 2; CU8 2; CBool false; CU8 1; CBool true]
                  = Ok (2, [CU8 2; CBool false; CU8 1; CBool true]))
    by reflexivity.
  apply decoded_map_ignores_arrival_order
    with (de1 := [CU8 1; CBool true; CU8 2; CBool false])
         (de1' := [CU8 2; CBool false; CU8 1; CBool true])
         (len := 2)
         (entries' := [(VU8 2, VBool false); (VU8 1, VBool true)]).
  - exact u8_lt_irreflexive.
  - exact u8_lt_transitive.
  - intros e e' [<-|[<-|[]]] [<-|[<-|[]]] same;
      (reflexivity || discriminate).
  - apply perm_swap.
  - reflexivity.
  - exact read.
  - eapply decodes_next_entry; [reflexivity | reflexivity |].
    eapply decodes_next_entry; [reflexivity | reflexivity |].
    apply decodes_no_entry.
  - exact read'.
  - eapply decodes_next_entry; [reflexivity | reflexivity |].
    eapply decodes_next_entry; [reflexivity | reflexivity |].
    apply decodes_no_entry.
Defined.
